(** * Depth-oriented algebraic rewriting of AND-inverter graphs

    A shallow embedding of [aig_algebraic_rewriting.hpp]: the three rewriting
    rules (associativity, distributivity, three-layer distributivity), the
    rule dispatcher and the fixpoint driver, over an arena model of the
    network collaborator, followed by the properties of the engine. *)

From Stdlib Require Import List Arith Bool Lia PeanoNat.
Import ListNotations.

(** ** Data model *)

(** A node is an index into the arena of the network. *)
Definition node := nat.

(** A signal is a node together with a polarity bit. *)
Record signal : Type := mk_signal { index : node; complement : bool }.

(** Modelled from the spec: the storage of the network (aig.hpp is not part
    of the sources at hand).  A node is the constant, a primary input or a
    two-input AND gate holding its ordered fanin. *)
Inductive cell : Type :=
| Constant
| Pi
| Gate (c0 c1 : signal).

(** The calls the engine makes on the mutating part of the interface.  They
    are recorded so that properties about what a rule did, and in which order,
    can be stated. *)
Inductive event : Type :=
| EvCreateAnd (a b : signal)
| EvCreateNot (a : signal)
| EvCreateNand (a b : signal)
| EvSubstitute (old : node) (new : signal)
| EvUpdateLevels.

(** Modelled from the spec: the network with its depth view.  [nodes] is the
    arena, [dead] the nodes retired by substitution, [outputs] the primary
    outputs and [levels] the level annotation of the depth view. *)
Record network : Type := mk_network {
  nodes : list cell;
  dead : list node;
  outputs : list signal;
  levels : list nat
}.

Definition size (ntk : network) : nat := length (nodes ntk).

Definition cell_of (ntk : network) (n : node) : cell := nth n (nodes ntk) Constant.

Definition signal_eqb (a b : signal) : bool :=
  (index a =? index b) && Bool.eqb (complement a) (complement b).

(** ** The monad of the engine: the network is threaded, the calls logged *)

Definition M (A : Type) : Type := network -> A * network * list event.

Definition ret {A : Type} (x : A) : M A := fun ntk => (x, ntk, []).

Definition bind {A B : Type} (m : M A) (f : A -> M B) : M B := fun ntk =>
  let '(x, ntk1, e1) := m ntk in
  let '(y, ntk2, e2) := f x ntk1 in
  (y, ntk2, e1 ++ e2).

Notation "x <- m ;; k" := (bind m (fun x => k))
  (at level 61, m at next level, right associativity).
Notation "m ;;; k" := (bind m (fun _ => k))
  (at level 61, right associativity).

(** ** The interface of the network (section 6 of the specification)

    aig.hpp and depth_view.hpp are not part of the sources at hand; the
    operations the engine calls are modelled from the specification. *)

(** Modelled from the spec: the queries on signals (aig.hpp is missing); a
    signal is a node and a polarity. *)
Definition get_node (s : signal) : node := index s.

Definition is_complemented (s : signal) : bool := complement s.

(** Modelled from the spec: the fanin count (aig.hpp is missing); two for an
    AND gate, none for a primary input or the constant. *)
Definition fanin_size (ntk : network) (n : node) : nat :=
  match cell_of ntk n with
  | Gate _ _ => 2
  | _ => 0
  end.

(** Modelled from the spec: the ordered fanin, as [foreach_fanin] (aig.hpp,
    missing) enumerates it. *)
Definition fanins (ntk : network) (n : node) : list signal :=
  match cell_of ntk n with
  | Gate a b => [a; b]
  | _ => []
  end.

(** Modelled from the spec: the level query of the depth view
    (depth_view.hpp is missing).  A level is a path length, a natural number;
    it never exceeds the number of nodes. *)
Definition level (ntk : network) (n : node) : nat := nth n (levels ntk) 0.

Definition is_dead (ntk : network) (n : node) : bool :=
  existsb (Nat.eqb n) (dead ntk).

Definition is_gate (ntk : network) (n : node) : bool :=
  match cell_of ntk n with
  | Gate _ _ => true
  | _ => false
  end.

(** Modelled from the spec: structural deduplication (aig.hpp is missing); a
    live gate with the requested fanin, in either order, is returned instead
    of a duplicate. *)
Definition same_fanin (a b : signal) (c : cell) : bool :=
  match c with
  | Gate x y => (signal_eqb x a && signal_eqb y b) || (signal_eqb x b && signal_eqb y a)
  | _ => false
  end.

Fixpoint find_gate (dd : list node) (a b : signal) (cs : list cell) (i : node)
  : option node :=
  match cs with
  | [] => None
  | c :: cs' =>
      if same_fanin a b c && negb (existsb (Nat.eqb i) dd) then Some i
      else find_gate dd a b cs' (S i)
  end.

Definition with_nodes (ntk : network) (ns : list cell) : network :=
  {| nodes := ns; dead := dead ntk; outputs := outputs ntk; levels := levels ntk |}.

(** Modelled from the spec: construction of the AND of two signals (aig.hpp
    is missing); an existing gate is reused, else a gate is appended to the
    arena. *)
Definition and_node (a b : signal) (ntk : network) : signal * network :=
  match find_gate (dead ntk) a b (nodes ntk) 0 with
  | Some i => (mk_signal i false, ntk)
  | None => (mk_signal (size ntk) false, with_nodes ntk (nodes ntk ++ [Gate a b]))
  end.

Definition negate (s : signal) : signal := mk_signal (index s) (negb (complement s)).

(** Modelled from the spec: the three constructors of the interface (aig.hpp
    is missing); NOT flips the polarity, NAND is the NOT of the AND. *)
Definition create_and (a b : signal) : M signal := fun ntk =>
  let '(s, ntk1) := and_node a b ntk in (s, ntk1, [EvCreateAnd a b]).

Definition create_not (a : signal) : M signal := fun ntk =>
  (negate a, ntk, [EvCreateNot a]).

Definition create_nand (a b : signal) : M signal := fun ntk =>
  let '(s, ntk1) := and_node a b ntk in (negate s, ntk1, [EvCreateNand a b]).

(** Modelled from the spec: substitution (aig.hpp is missing); every
    reference to [old], in a fanin or in an output, is redirected to [new],
    keeping the polarity of the reference, and [old] is marked dead. *)
Definition replace_in_signal (old : node) (new s : signal) : signal :=
  if index s =? old
  then mk_signal (index new) (xorb (complement new) (complement s))
  else s.

Definition replace_in_cell (old : node) (new : signal) (c : cell) : cell :=
  match c with
  | Gate a b => Gate (replace_in_signal old new a) (replace_in_signal old new b)
  | _ => c
  end.

Definition rewire (old : node) (new : signal) (ntk : network) : network :=
  {| nodes := map (replace_in_cell old new) (nodes ntk);
     dead := old :: dead ntk;
     outputs := map (replace_in_signal old new) (outputs ntk);
     levels := levels ntk |}.

Definition substitute_node (old : node) (new : signal) : M unit := fun ntk =>
  (tt, rewire old new ntk, [EvSubstitute old new]).

(** Modelled from the spec: the levels of the depth view (depth_view.hpp is
    missing); the longest path, in gate layers, from a primary input, a
    function of the structure alone.  The recursion over the fanin cone is
    bounded by the number of nodes, which suffices in an acyclic network. *)
Fixpoint compute_level (fuel : nat) (ntk : network) (n : node) : nat :=
  match fuel with
  | 0 => 0
  | S f =>
      match cell_of ntk n with
      | Gate a b => S (Nat.max (compute_level f ntk (index a)) (compute_level f ntk (index b)))
      | _ => 0
      end
  end.

Definition structural_level (ntk : network) (n : node) : nat :=
  compute_level (S (size ntk)) ntk n.

Definition compute_levels (ntk : network) : list nat :=
  map (structural_level ntk) (seq 0 (size ntk)).

Definition refresh (ntk : network) : network :=
  {| nodes := nodes ntk; dead := dead ntk; outputs := outputs ntk;
     levels := compute_levels ntk |}.

Definition update_levels : M unit := fun ntk => (tt, refresh ntk, [EvUpdateLevels]).

(** Modelled from the spec: the depth of the network (depth_view.hpp is
    missing), the largest level of an output. *)
Definition depth (ntk : network) : nat :=
  fold_right Nat.max 0 (map (fun o => level ntk (index o)) (outputs ntk)).

(** ** Boolean function of the circuit *)

(** The value of a node under an assignment [env] of the primary inputs. *)
Fixpoint eval_node (fuel : nat) (ntk : network) (env : node -> bool) (n : node) : bool :=
  match fuel with
  | 0 => false
  | S f =>
      match cell_of ntk n with
      | Constant => false
      | Pi => env n
      | Gate a b =>
          xorb (complement a) (eval_node f ntk env (index a))
          && xorb (complement b) (eval_node f ntk env (index b))
      end
  end.

Definition node_value (ntk : network) (env : node -> bool) (n : node) : bool :=
  eval_node (S (size ntk)) ntk env n.

Definition signal_value (ntk : network) (env : node -> bool) (s : signal) : bool :=
  xorb (complement s) (node_value ntk env (index s)).

Definition output_values (ntk : network) (env : node -> bool) : list bool :=
  map (signal_value ntk env) (outputs ntk).

(** ** The engine (aig_algebraic_rewriting_impl) *)

(** The comparisons of the source, in its own direction. *)
Notation "a >? b" := (Nat.ltb b a) (at level 70, only parsing) : nat_scope.
Notation "a >=? b" := (Nat.leb b a) (at level 70, only parsing) : nat_scope.

(** [extract_and] (lines 63-95): view a node as a two-input AND; the two
    fanin signals and their nodes come in stored order. *)
Definition extract_and (ntk : network) (n : node)
  : option (signal * signal * node * node) :=
  if negb (fanin_size ntk n =? 2) then None
  else match fanins ntk n with
       | [s0; s1] => Some (s0, s1, get_node s0, get_node s1)
       | _ => None
       end.

(** [try_associativity] (lines 98-143). *)
Definition try_associativity (n : node) : M bool := fun ntk =>
  match extract_and ntk n with
  | None => ret false ntk
  | Some (sl, sr, nl, nr) =>
    match (if level ntk nl >? level ntk nr + 1 then Some (sr, sl, nr, nl)
           else if level ntk nl + 1 >=? level ntk nr then None
           else Some (sl, sr, nl, nr)) with
    | None => ret false ntk
    | Some (sl, sr, nl, nr) =>
      if is_complemented sr then ret false ntk else
      match extract_and ntk nr with
      | None => ret false ntk
      | Some (srl, srr, nrl, nrr) =>
        match (if level ntk nrl >? level ntk nrr then Some (srr, srl, nrr, nrl)
               else if level ntk nrl =? level ntk nrr then None
               else Some (srl, srr, nrl, nrr)) with
        | None => ret false ntk
        | Some (srl, srr, nrl, nrr) =>
          (new_sl <- create_and sl srl ;;
           new_s <- create_and new_sl srr ;;
           substitute_node n new_s ;;;
           ret true) ntk
        end
      end
    end
  end.

(** The search for the shared node of [try_distributivity] and the swaps that
    follow it (lines 174-194): the result is the two fanin pairs after the
    swaps, [None] when the rule returns for want of a shared node. *)
Definition normalize_common
  (l r : signal * signal * node * node)
  : option ((signal * signal * node * node) * (signal * signal * node * node)) :=
  let '(sll, slr, nll, nlr) := l in
  let '(srl, srr, nrl, nrr) := r in
  if nll =? nrr then Some ((slr, sll, nlr, nll), (srr, srl, nrr, nrl))
  else if nll =? nrl then Some ((slr, sll, nlr, nll), (srl, srr, nrl, nrr))
  else if nlr =? nrr then Some ((sll, slr, nll, nlr), (srr, srl, nrr, nrl))
  else if negb (nlr =? nrl) then None
  else Some ((sll, slr, nll, nlr), (srl, srr, nrl, nrr)).

(** [try_distributivity] (lines 146-213). *)
Definition try_distributivity (n : node) : M bool := fun ntk =>
  match extract_and ntk n with
  | None => ret false ntk
  | Some (sl, sr, nl, nr) =>
    if negb (is_complemented sl) || negb (is_complemented sr) then ret false ntk else
    match extract_and ntk nl with
    | None => ret false ntk
    | Some fl =>
      match extract_and ntk nr with
      | None => ret false ntk
      | Some fr =>
        match normalize_common fl fr with
        | None => ret false ntk
        | Some ((sll, slr, nll, nlr), (srl, srr, nrl, nrr)) =>
          if (level ntk nlr <=? level ntk nll) || (level ntk nlr <=? level ntk nrr)
          then ret false ntk
          else if negb (Bool.eqb (is_complemented slr) (is_complemented srl))
          then ret false ntk
          else
            (let new_sl := slr in
             new_srl <- create_not sll ;;
             new_srr <- create_not srr ;;
             new_sr <- create_nand new_srl new_srr ;;
             new_s <- create_nand new_sl new_sr ;;
             substitute_node n new_s ;;;
             ret true) ntk
        end
      end
    end
  end.

(** [try_3l_distributivity] (lines 216-290). *)
Definition try_3l_distributivity (n : node) : M bool := fun ntk =>
  match extract_and ntk n with
  | None => ret false ntk
  | Some (sl, sr, nl, nr) =>
    match (if level ntk nl >? level ntk nr + 2 then Some (sr, sl, nr, nl)
           else if level ntk nl + 2 >=? level ntk nr then None
           else Some (sl, sr, nl, nr)) with
    | None => ret false ntk
    | Some (sl, sr, nl, nr) =>
      if negb (is_complemented sr) then ret false ntk else
      match extract_and ntk nr with
      | None => ret false ntk
      | Some (srl, srr, nrl, nrr) =>
        match (if level ntk nrl >? level ntk nrr + 1 then Some (srr, srl, nrr, nrl)
               else if level ntk nrl + 1 >=? level ntk nrr then None
               else Some (srl, srr, nrl, nrr)) with
        | None => ret false ntk
        | Some (srl, srr, nrl, nrr) =>
          if negb (is_complemented srr) then ret false ntk else
          match extract_and ntk nrr with
          | None => ret false ntk
          | Some (srrl, srrr, nrrl, nrrr) =>
            match (if level ntk nrrl >? level ntk nrrr then Some (srrr, srrl, nrrr, nrrl)
                   else if level ntk nrrl =? level ntk nrrr then None
                   else Some (srrl, srrr, nrrl, nrrr)) with
            | None => ret false ntk
            | Some (srrl, srrr, nrrl, nrrr) =>
              (let new_sll := sl in
               new_slr <- create_not srl ;;
               new_sl <- create_nand new_sll new_slr ;;
               let new_srll := sl in
               let new_srlr := srrl in
               new_srl <- create_and new_srll new_srlr ;;
               let new_srr := srrr in
               new_sr <- create_nand new_srl new_srr ;;
               new_s <- create_nand new_sl new_sr ;;
               substitute_node n new_s ;;;
               ret true) ntk
            end
          end
        end
      end
    end
  end.

(** [try_algebraic_rules] (lines 51-61). *)
Definition try_algebraic_rules (n : node) : M bool := fun ntk =>
  let '(b1, ntk1, e1) := try_associativity n ntk in
  if b1 then (true, ntk1, e1) else
  let '(b2, ntk2, e2) := try_distributivity n ntk1 in
  if b2 then (true, ntk2, e1 ++ e2) else
  let '(b3, ntk3, e3) := try_3l_distributivity n ntk2 in
  if b3 then (true, ntk3, e1 ++ e2 ++ e3) else
  (false, ntk3, e1 ++ e2 ++ e3).

(** The body of the loop of [run] (lines 39-45): one gate is visited; [cont]
    is the flag of the pass. *)
Definition visit (n : node) (cont : bool) : M bool :=
  fired <- try_algebraic_rules n ;;
  if fired then (update_levels ;;; ret true) else ret cont.

(** Modelled from the spec: [foreach_gate] (aig.hpp is missing) visits the
    nodes that are live gates at the time they are reached, in the order of
    the arena; the list of candidates is the arena at the start of the scan. *)
Fixpoint foreach_gate (ns : list node) (cont : bool) : M bool := fun ntk =>
  match ns with
  | [] => ret cont ntk
  | n :: rest =>
      if is_gate ntk n && negb (is_dead ntk n)
      then (c <- visit n cont ;; foreach_gate rest c) ntk
      else foreach_gate rest cont ntk
  end.

(** One full scan over the gates; the result is the flag [cont]. *)
Definition scan : M bool := fun ntk =>
  foreach_gate (seq 0 (size ntk)) false ntk.

(** [run] (lines 33-47): scans are repeated until one of them fires no rule.  The loop of
    the source has no bound; [fuel] bounds the number of scans and [None] is
    the answer when it does not suffice. *)
Fixpoint run (fuel : nat) (ntk : network) : option (network * list event) :=
  match fuel with
  | 0 => None
  | S f =>
      let '(cont, ntk1, e1) := scan ntk in
      if cont
      then match run f ntk1 with
           | Some (ntk2, e2) => Some (ntk2, e1 ++ e2)
           | None => None
           end
      else Some (ntk1, e1)
  end.

(** [aig_algebraic_rewriting] (lines 299-307): the entry point wraps the
    network in a depth view, which computes the levels, and runs the engine. *)
Definition aig_algebraic_rewriting (fuel : nat) (ntk : network)
  : option (network * list event) :=
  let '(_, dntk, e0) := update_levels ntk in
  match run fuel dntk with
  | Some (ntk', e) => Some (ntk', e0 ++ e)
  | None => None
  end.

(** ** Well-formed networks *)

(** A rank certifies that the network is acyclic: the fanin of every gate is
    in range and of smaller rank. *)
Definition rank_valid (ntk : network) (R : node -> nat) : Prop :=
  forall n a b, cell_of ntk n = Gate a b ->
    index a < size ntk /\ index b < size ntk /\
    R (index a) < R n /\ R (index b) < R n.

Definition rank_bounded (ntk : network) (R : node -> nat) : Prop :=
  forall n, n < size ntk -> R n <= size ntk.

(** The networks the engine is given: every signal refers to a node of the
    arena and no gate depends on itself. *)
Definition acyclic (ntk : network) : Prop :=
  Forall (fun o => index o < size ntk) (outputs ntk) /\
  exists R, rank_valid ntk R.

(** The same with a rank that the number of nodes bounds; every acyclic
    network has one (lemma [acyclic_well_formed]). *)
Definition well_formed (ntk : network) : Prop :=
  Forall (fun o => index o < size ntk) (outputs ntk) /\
  exists R, rank_valid ntk R /\ rank_bounded ntk R.

(** The state on which the engine works: a well-formed network whose level
    annotation is the one the depth view computes. *)
Definition annotated (ntk : network) : Prop :=
  well_formed ntk /\ levels ntk = compute_levels ntk.

(** A network built gate after gate is in topological order; this is a
    decidable sufficient condition for well-formedness. *)
Fixpoint topo_cells (cs : list cell) (i : node) : bool :=
  match cs with
  | [] => true
  | c :: cs' =>
      match c with
      | Gate a b => (index a <? i) && (index b <? i)
      | _ => true
      end && topo_cells cs' (S i)
  end.

Definition topo_sorted (ntk : network) : bool :=
  topo_cells (nodes ntk) 0 && forallb (fun o => index o <? size ntk) (outputs ntk).

(** ** Construction only appends to the arena *)

Definition extends (ntk ntk1 : network) : Prop :=
  (exists extra, nodes ntk1 = nodes ntk ++ extra) /\
  dead ntk1 = dead ntk /\ outputs ntk1 = outputs ntk /\ levels ntk1 = levels ntk.

(** ** The rules as the specification words them: a pattern and an action *)

Definition operands (ntk : network) (n : node) : option (signal * signal) :=
  match cell_of ntk n with
  | Gate a b => Some (a, b)
  | _ => None
  end.

Definition slevel (ntk : network) (s : signal) : nat := level ntk (index s).

(** The pair is swapped when its first operand lies more than [gap] levels
    above the second one. *)
Definition orient (gap : nat) (ntk : network) (p : signal * signal) : signal * signal :=
  let (a, b) := p in
  if slevel ntk b + gap <? slevel ntk a then (b, a) else (a, b).

(** Associativity (section 4.2): the operands [l], [rl], [rr] of a match. *)
Definition assoc_pattern (ntk : network) (n : node) : option (signal * signal * signal) :=
  match operands ntk n with
  | None => None
  | Some p =>
      let (l, r) := orient 1 ntk p in
      match operands ntk (index r) with
      | None => None
      | Some q =>
          let (rl, rr) := orient 0 ntk q in
          if (slevel ntk l + 1 <? slevel ntk r)
             && negb (complement r)
             && negb (slevel ntk rl =? slevel ntk rr)
          then Some (l, rl, rr) else None
      end
  end.

Definition assoc_action (n : node) (l rl rr : signal) : M bool :=
  inner <- create_and l rl ;;
  new <- create_and inner rr ;;
  substitute_node n new ;;;
  ret true.

(** Distributivity (section 4.3): the search for the shared node, in the order
    A==D, A==C, B==D, B==C.  The result lists the distinct branch and the
    common factor of the left pair, then the common factor and the distinct
    branch of the right pair. *)
Definition shared_node (A B C D : signal) : option (signal * signal * signal * signal) :=
  if index A =? index D then Some (B, A, D, C)
  else if index A =? index C then Some (B, A, C, D)
  else if index B =? index D then Some (A, B, D, C)
  else if index B =? index C then Some (A, B, C, D)
  else None.

Definition dist_pattern (ntk : network) (n : node) : option (signal * signal * signal) :=
  match operands ntk n with
  | None => None
  | Some (L, R) =>
      if complement L && complement R then
        match operands ntk (index L), operands ntk (index R) with
        | Some (A, B), Some (C, D) =>
            match shared_node A B C D with
            | Some (d1, c1, c2, d2) =>
                if (slevel ntk d1 <? slevel ntk c1)
                   && (slevel ntk d2 <? slevel ntk c1)
                   && Bool.eqb (complement c1) (complement c2)
                then Some (d1, c1, d2) else None
            | None => None
            end
        | _, _ => None
        end
      else None
  end.

Definition dist_action (n : node) (d1 common d2 : signal) : M bool :=
  notA <- create_not d1 ;;
  notB <- create_not d2 ;;
  orAB <- create_nand notA notB ;;
  new <- create_nand common orAB ;;
  substitute_node n new ;;;
  ret true.

(** Three-layer distributivity (section 4.4): the operands [l], [rl], [rrl],
    [rrr] of a match. *)
Definition dist3_pattern (ntk : network) (n : node)
  : option (signal * signal * signal * signal) :=
  match operands ntk n with
  | None => None
  | Some p =>
      let (l, r) := orient 2 ntk p in
      match operands ntk (index r) with
      | None => None
      | Some q =>
          let (rl, rr) := orient 1 ntk q in
          match operands ntk (index rr) with
          | None => None
          | Some q' =>
              let (rrl, rrr) := orient 0 ntk q' in
              if (slevel ntk l + 2 <? slevel ntk r)
                 && complement r
                 && (slevel ntk rl + 1 <? slevel ntk rr)
                 && complement rr
                 && negb (slevel ntk rrl =? slevel ntk rrr)
              then Some (l, rl, rrl, rrr) else None
          end
      end
  end.

Definition dist3_action (n : node) (l rl rrl rrr : signal) : M bool :=
  notRl <- create_not rl ;;
  newL <- create_nand l notRl ;;
  innerR <- create_and l rrl ;;
  newR <- create_nand innerR rrr ;;
  new <- create_nand newL newR ;;
  substitute_node n new ;;;
  ret true.

(** ** The effect of a rewrite *)

(** [rewritten ntk n s ntk'] : [ntk'] is [ntk] after node [n] was replaced by
    the signal [s], a signal of the same value and of smaller level. *)
Record rewritten (ntk : network) (n : node) (s : signal) (ntk' : network) : Prop := {
  rw_size : size ntk <= size ntk';
  rw_well_formed : well_formed ntk';
  rw_level : forall x, x < size ntk ->
      structural_level ntk' x <= structural_level ntk x;
  rw_value : forall env x, x < size ntk ->
      node_value ntk' env x = node_value ntk env x;
  rw_outputs : outputs ntk' = map (replace_in_signal n s) (outputs ntk);
  rw_new_range : index s < size ntk';
  rw_new_level : structural_level ntk' (index s) < structural_level ntk n;
  rw_new_value : forall env, signal_value ntk' env s = node_value ntk env n;
  rw_growth : size ntk' <= size ntk + 4;
  rw_fresh : forall x, size ntk <= x -> x < size ntk' ->
      structural_level ntk' x < structural_level ntk n;
  rw_dead : dead ntk' = n :: dead ntk;
  rw_gate : forall x, x < size ntk -> is_gate ntk' x = is_gate ntk x
}.

(** ** The outcome of a rule attempt *)

Definition is_construction (e : event) : bool :=
  match e with
  | EvCreateAnd _ _ | EvCreateNot _ | EvCreateNand _ _ => true
  | _ => false
  end.

Definition is_substitution (e : event) : bool :=
  match e with
  | EvSubstitute _ _ => true
  | _ => false
  end.

Definition substitutions (es : list event) : nat :=
  length (filter is_substitution es).

(** The shape of an attempt, whatever the network: either nothing happened,
    or constructions extended the network to [ntkk] and then, as the last
    call, the node was substituted. *)
Inductive attempt (ntk : network) (n : node) : bool * network * list event -> Prop :=
| attempt_no_match : attempt ntk n (false, ntk, [])
| attempt_fired cs s ntkk :
    forallb is_construction cs = true ->
    extends ntk ntkk ->
    attempt ntk n (true, rewire n s ntkk, cs ++ [EvSubstitute n s]).

(** On an annotated network, a rule that fires performs a rewrite. *)
Inductive outcome (ntk : network) (n : node) : bool * network * list event -> Prop :=
| outcome_no_match : outcome ntk n (false, ntk, [])
| outcome_fired cs s ntk' :
    forallb is_construction cs = true ->
    rewritten ntk n s ntk' ->
    outcome ntk n (true, ntk', cs ++ [EvSubstitute n s]).

(** ** The driver *)

(** What the engine keeps from the network it started on. *)
Definition preserved (ntk ntk' : network) : Prop :=
  annotated ntk' /\ size ntk <= size ntk' /\
  (forall env, output_values ntk' env = output_values ntk env) /\
  depth ntk' <= depth ntk.

Inductive visited (ntk : network) (n : node) (cont : bool)
  : bool * network * list event -> Prop :=
| visited_quiet : visited ntk n cont (cont, ntk, [])
| visited_fired cs s ntkk :
    forallb is_construction cs = true ->
    extends ntk ntkk ->
    visited ntk n cont
      (true, refresh (rewire n s ntkk), cs ++ [EvSubstitute n s; EvUpdateLevels]).

(** In the log of the driver, a substitution is at once followed by the
    recomputation of the levels. *)
Fixpoint refreshed_after_substitution (es : list event) : bool :=
  match es with
  | [] => true
  | EvSubstitute _ _ :: rest =>
      match rest with
      | EvUpdateLevels :: _ => refreshed_after_substitution rest
      | _ => false
      end
  | _ :: rest => refreshed_after_substitution rest
  end.

(** ** Scans and runs *)

(** The network and the log after [k] scans, whatever their flags. *)
Fixpoint after_scans (k : nat) (ntk : network) : network * list event :=
  match k with
  | 0 => (ntk, [])
  | S k' =>
      let '(_, ntk1, e1) := scan ntk in
      let '(ntk2, e2) := after_scans k' ntk1 in
      (ntk2, e1 ++ e2)
  end.

(** The flag of a scan of [ntk]. *)
Definition scan_fires (ntk : network) : bool := fst (fst (scan ntk)).

(** A measure of the work left: every live gate weighs five to the power of
    its level.  A rewrite retires a gate and adds at most four gates of
    smaller level, so the measure decreases. *)
Definition weight (ntk : network) (x : node) : nat :=
  if is_gate ntk x && negb (is_dead ntk x) then 5 ^ structural_level ntk x else 0.

Definition potential (ntk : network) : nat :=
  list_sum (map (weight ntk) (seq 0 (size ntk))).

(** The three rules, by name. *)
Inductive rule : Type := Associativity | Distributivity | ThreeLayerDistributivity.

Definition apply_rule (r : rule) : node -> M bool :=
  match r with
  | Associativity => try_associativity
  | Distributivity => try_distributivity
  | ThreeLayerDistributivity => try_3l_distributivity
  end.

(** ** Example circuits *)

Definition sig (n : node) : signal := mk_signal n false.
Definition nsig (n : node) : signal := mk_signal n true.

(** n = x0 . ((x1.x2) . ((x3.x4) . x5)), node 11 at level 4. *)
Definition circuit_assoc : network :=
  {| nodes := [Constant; Pi; Pi; Pi; Pi; Pi; Pi;
               Gate (sig 2) (sig 3); Gate (sig 4) (sig 5);
               Gate (sig 8) (sig 6); Gate (sig 7) (sig 9);
               Gate (sig 1) (sig 10)];
     dead := []; outputs := [sig 11]; levels := [] |}.

(** n = ~(a.c) . ~(b.c) with c = x3.x4 the deep common factor; node 8. *)
Definition circuit_dist : network :=
  {| nodes := [Constant; Pi; Pi; Pi; Pi;
               Gate (sig 3) (sig 4);
               Gate (sig 1) (sig 5); Gate (sig 2) (sig 5);
               Gate (nsig 6) (nsig 7)];
     dead := []; outputs := [sig 8]; levels := [] |}.

(** n = x5 . ~(x4 . ~(x3 . (x1.x2))); node 9. *)
Definition circuit_dist3 : network :=
  {| nodes := [Constant; Pi; Pi; Pi; Pi; Pi;
               Gate (sig 1) (sig 2);
               Gate (sig 3) (sig 6);
               Gate (sig 4) (nsig 7);
               Gate (sig 5) (nsig 8)];
     dead := []; outputs := [sig 9]; levels := [] |}.

(** ** Fanin pairs of the distributivity rule *)

Definition fanin_pair : Type := (signal * signal * node * node)%type.

Definition node0 (f : fanin_pair) : node := let '(_, _, n0, _) := f in n0.
Definition node1 (f : fanin_pair) : node := let '(_, _, _, n1) := f in n1.
Definition swap_pair (f : fanin_pair) : fanin_pair :=
  let '(s0, s1, n0, n1) := f in (s1, s0, n1, n0).

(** Results of the engine on the example circuits. *)
Definition result_of (r : option (network * list event)) (d : network) : network :=
  match r with
  | Some (ntk, _) => ntk
  | None => d
  end.

Definition log_of (r : option (network * list event)) : list event :=
  match r with
  | Some (_, es) => es
  | None => []
  end.

Definition rewritten_assoc : network :=
  Eval vm_compute in result_of (aig_algebraic_rewriting 2 circuit_assoc) circuit_assoc.
Definition log_assoc : list event :=
  Eval vm_compute in log_of (aig_algebraic_rewriting 2 circuit_assoc).
Definition all_true : node -> bool := fun _ => true.

Definition rewritten_dist : network :=
  Eval vm_compute in snd (fst (try_distributivity 8 (refresh circuit_dist))).
Definition log_dist : list event :=
  Eval vm_compute in snd (try_distributivity 8 (refresh circuit_dist)).

Definition rewritten_dist3 : network :=
  Eval vm_compute in snd (fst (try_3l_distributivity 9 (refresh circuit_dist3))).
Definition log_dist3 : list event :=
  Eval vm_compute in snd (try_3l_distributivity 9 (refresh circuit_dist3)).

(** ** Further notions for the properties of the rules and of the driver *)

Definition is_pi (ntk : network) (n : node) : bool :=
  match cell_of ntk n with
  | Pi => true
  | _ => false
  end.

(** The gates a scan visits. *)
Definition live_gate (ntk : network) (n : node) : bool :=
  is_gate ntk n && negb (is_dead ntk n).

(** The number of constructor calls of a rule that can add a gate. *)
Definition max_growth (r : rule) : nat :=
  match r with
  | Associativity => 2
  | Distributivity => 2
  | ThreeLayerDistributivity => 4
  end.

(** The nodes that the substitutions of a log retire, in the order of the
    log. *)
Fixpoint substituted (es : list event) : list node :=
  match es with
  | [] => []
  | EvSubstitute n _ :: rest => n :: substituted rest
  | _ :: rest => substituted rest
  end.

Definition swap_cell (c : cell) : cell :=
  match c with
  | Gate a b => Gate b a
  | _ => c
  end.

(** Two networks that differ at most in the stored order of the fanin of
    their gates. *)
Definition same_up_to_order (ntk ntk' : network) : Prop :=
  levels ntk' = levels ntk /\
  forall x, cell_of ntk' x = cell_of ntk x \/ cell_of ntk' x = swap_cell (cell_of ntk x).

(** What a later network keeps of the nodes of an earlier one: no node is
    lost, none gets deeper and each keeps its value. *)
Definition framed (ntk ntk' : network) : Prop :=
  size ntk <= size ntk' /\
  (forall x, x < size ntk -> structural_level ntk' x <= structural_level ntk x) /\
  (forall env x, x < size ntk -> node_value ntk' env x = node_value ntk env x).

(** [grows k ntk ntk'] : the arena has at most [k] more nodes, all of them
    gates; the nodes it had keep their kind; the primary inputs and the number
    of outputs are the same. *)
Definition grows (k : nat) (ntk ntk' : network) : Prop :=
  size ntk <= size ntk' /\ size ntk' <= size ntk + k /\
  (forall x, x < size ntk -> is_gate ntk' x = is_gate ntk x) /\
  (forall x, size ntk <= x -> x < size ntk' -> is_gate ntk' x = true) /\
  (forall x, is_pi ntk' x = is_pi ntk x) /\
  length (outputs ntk') = length (outputs ntk).

(** The circuit of [circuit_assoc] with the fanin of nodes 10 and 11 stored
    in the other order. *)
Definition circuit_assoc_swapped : network :=
  {| nodes := [Constant; Pi; Pi; Pi; Pi; Pi; Pi;
               Gate (sig 2) (sig 3); Gate (sig 4) (sig 5);
               Gate (sig 8) (sig 6); Gate (sig 9) (sig 7);
               Gate (sig 10) (sig 1)];
     dead := []; outputs := [sig 11];
     levels := [0; 0; 0; 0; 0; 0; 0; 1; 1; 2; 3; 4] |}.

(** As the specification words the condition of distributivity: the operand
    pairs (A,B) and (C,D) share exactly one underlying node.  [common_nodes]
    lists the nodes of the first pair, each once, that occur in the second. *)
Definition common_nodes (A B C D : signal) : list node :=
  filter (fun x => (x =? index C) || (x =? index D))
         (nodup Nat.eq_dec [index A; index B]).

Definition exactly_one_common (A B C D : signal) : Prop :=
  length (common_nodes A B C D) = 1.

(** n = ~(c.d) . ~(c.~d) with c = x1.x2 and d = x3: the two operand gates,
    nodes 5 and 6, have the same two fanin nodes; node 7. *)
Definition circuit_two_shared : network :=
  {| nodes := [Constant; Pi; Pi; Pi;
               Gate (sig 1) (sig 2);
               Gate (sig 4) (sig 3); Gate (sig 4) (nsig 3);
               Gate (nsig 5) (nsig 6)];
     dead := []; outputs := [sig 7]; levels := [] |}.

(** Two inputs and their conjunction: a network of depth one. *)
Definition circuit_shallow : network :=
  {| nodes := [Constant; Pi; Pi; Gate (sig 1) (sig 2)];
     dead := []; outputs := [sig 3]; levels := [] |}.

(** * Proofs *)

(** ** Elementary facts *)

Lemma cell_of_gate_lt ntk n a b : cell_of ntk n = Gate a b -> n < size ntk.
Proof.
  unfold cell_of, size. intros H.
  destruct (Nat.lt_ge_cases n (length (nodes ntk))) as [L|L]; [exact L|].
  rewrite nth_overflow in H by exact L. discriminate.
Qed.

Lemma signal_eqb_eq a b : signal_eqb a b = true -> a = b.
Proof.
  destruct a as [i c], b as [j d]. unfold signal_eqb. simpl.
  rewrite andb_true_iff, Nat.eqb_eq. intros [-> H].
  apply eqb_prop in H. now subst.
Qed.

Lemma topo_cells_nth cs : forall i k a b,
  topo_cells cs i = true -> nth k cs Constant = Gate a b ->
  index a < i + k /\ index b < i + k.
Proof.
  induction cs as [|c cs IH]; intros i k a b T H.
  - destruct k; discriminate.
  - simpl in T. apply andb_true_iff in T. destruct T as [Tc T].
    destruct k as [|k]; simpl in H.
    + subst c. apply andb_true_iff in Tc. rewrite !Nat.ltb_lt in Tc. lia.
    + destruct (IH (S i) k a b T H). lia.
Qed.

Lemma topo_sorted_well_formed ntk : topo_sorted ntk = true -> well_formed ntk.
Proof.
  unfold topo_sorted. rewrite andb_true_iff. intros [T O]. split.
  - rewrite forallb_forall in O. apply Forall_forall. intros o Ho.
    apply Nat.ltb_lt. now apply O.
  - exists (fun n => n). split.
    + intros n a b H. pose proof (cell_of_gate_lt _ _ _ _ H) as L.
      destruct (topo_cells_nth _ _ _ _ _ T H). simpl in *. lia.
    + intros n L. lia.
Qed.

(** ** Levels and values do not depend on the fuel *)

Section Rank.
Variable ntk : network.
Variable R : node -> nat.
Hypothesis valid : rank_valid ntk R.

Lemma compute_level_le_rank : forall fuel n, compute_level fuel ntk n <= R n.
Proof.
  induction fuel as [|f IH]; intros n; simpl; [lia|].
  destruct (cell_of ntk n) as [| |a b] eqn:E; try lia.
  destruct (valid _ _ _ E) as (_ & _ & Ha & Hb).
  pose proof (IH (index a)). pose proof (IH (index b)). lia.
Qed.

Lemma compute_level_stable : forall f1 f2 n,
  R n < f1 -> R n < f2 -> compute_level f1 ntk n = compute_level f2 ntk n.
Proof.
  induction f1 as [|f1 IH]; intros f2 n H1 H2; [lia|].
  destruct f2 as [|f2]; [lia|]. simpl.
  destruct (cell_of ntk n) as [| |a b] eqn:E; try reflexivity.
  destruct (valid _ _ _ E) as (_ & _ & Ha & Hb).
  rewrite (IH f2 (index a)), (IH f2 (index b)) by lia. reflexivity.
Qed.

Lemma eval_node_stable env : forall f1 f2 n,
  R n < f1 -> R n < f2 -> eval_node f1 ntk env n = eval_node f2 ntk env n.
Proof.
  induction f1 as [|f1 IH]; intros f2 n H1 H2; [lia|].
  destruct f2 as [|f2]; [lia|]. simpl.
  destruct (cell_of ntk n) as [| |a b] eqn:E; try reflexivity.
  destruct (valid _ _ _ E) as (_ & _ & Ha & Hb).
  rewrite (IH f2 (index a)), (IH f2 (index b)) by lia. reflexivity.
Qed.
End Rank.

(** ** An acyclic network has a rank bounded by its size *)

(** A level is witnessed by a path of as many distinct gates. *)
Lemma compute_level_chain ntk R :
  rank_valid ntk R ->
  forall fuel n, exists l,
    length l = compute_level fuel ntk n /\ NoDup l /\
    forall x, In x l -> x < size ntk /\ R x <= R n.
Proof.
  intros V. induction fuel as [|f IH]; intros n; simpl.
  - exists []. split; [reflexivity|]. split; [apply NoDup_nil | intros x []].
  - destruct (cell_of ntk n) as [| |a b] eqn:E;
      try (exists []; split; [reflexivity|]; split; [apply NoDup_nil | intros x []]).
    destruct (V _ _ _ E) as (_ & _ & Ha & Hb).
    pose proof (cell_of_gate_lt _ _ _ _ E) as Ln.
    assert (exists c, R c < R n /\
              Nat.max (compute_level f ntk (index a)) (compute_level f ntk (index b))
              = compute_level f ntk c) as (c & Hc & ->).
    { destruct (Nat.max_spec (compute_level f ntk (index a))
                             (compute_level f ntk (index b))) as [[_ ->]|[_ ->]];
        eauto. }
    destruct (IH c) as (l & Len & ND & Hl).
    exists (n :: l). split; [simpl; now rewrite Len|]. split.
    + constructor; [|exact ND]. intros I. destruct (Hl _ I). lia.
    + intros x [<-|I]; [lia|]. destruct (Hl _ I). lia.
Qed.

Lemma compute_level_bound ntk R fuel n :
  rank_valid ntk R -> compute_level fuel ntk n <= size ntk.
Proof.
  intros V. destruct (compute_level_chain ntk R V fuel n) as (l & <- & ND & Hl).
  unfold size. rewrite <- (length_seq (length (nodes ntk)) 0).
  apply NoDup_incl_length; [exact ND|].
  intros x I. apply in_seq. destruct (Hl _ I). unfold size in *. lia.
Qed.

Lemma acyclic_well_formed ntk : acyclic ntk -> well_formed ntk.
Proof.
  intros (O & R & V). split; [exact O|].
  exists (fun n => compute_level (S (R n)) ntk n). split.
  - intros n a b E. destruct (V _ _ _ E) as (Ia & Ib & Ha & Hb).
    change (compute_level (S (R n)) ntk n)
      with (match cell_of ntk n with
            | Gate a b => S (Nat.max (compute_level (R n) ntk (index a))
                                     (compute_level (R n) ntk (index b)))
            | _ => 0
            end).
    rewrite E.
    rewrite (compute_level_stable _ _ V (R n) (S (R (index a))) (index a)) by lia.
    rewrite (compute_level_stable _ _ V (R n) (S (R (index b))) (index b)) by lia.
    repeat split; try assumption; lia.
  - intros n _. now apply (compute_level_bound ntk R).
Qed.

Lemma well_formed_acyclic ntk : well_formed ntk -> acyclic ntk.
Proof. intros (O & R & V & _). split; [exact O|]. now exists R. Qed.

(** ** The structural level is the canonical rank *)

Lemma structural_level_gate ntk n a b :
  well_formed ntk -> cell_of ntk n = Gate a b ->
  structural_level ntk n
  = S (Nat.max (structural_level ntk (index a)) (structural_level ntk (index b))).
Proof.
  intros (_ & R & V & B) E. unfold structural_level.
  change (compute_level (S (size ntk)) ntk n)
    with (match cell_of ntk n with
          | Gate a b => S (Nat.max (compute_level (size ntk) ntk (index a))
                                   (compute_level (size ntk) ntk (index b)))
          | _ => 0
          end).
  rewrite E. destruct (V _ _ _ E) as (_ & _ & Ha & Hb).
  pose proof (B n (cell_of_gate_lt _ _ _ _ E)) as Hn.
  rewrite (compute_level_stable _ _ V (size ntk) (S (size ntk)) (index a)) by lia.
  rewrite (compute_level_stable _ _ V (size ntk) (S (size ntk)) (index b)) by lia.
  reflexivity.
Qed.

Lemma structural_level_not_gate ntk n :
  is_gate ntk n = false -> structural_level ntk n = 0.
Proof.
  unfold is_gate, structural_level. simpl.
  destruct (cell_of ntk n); [reflexivity | reflexivity | discriminate].
Qed.

Lemma structural_level_outside ntk n : size ntk <= n -> structural_level ntk n = 0.
Proof.
  intros L. apply structural_level_not_gate. unfold is_gate, cell_of.
  rewrite nth_overflow by exact L. reflexivity.
Qed.

Lemma structural_level_le_rank ntk R n :
  rank_valid ntk R -> structural_level ntk n <= R n.
Proof. intros V. apply compute_level_le_rank, V. Qed.

Lemma structural_rank ntk :
  well_formed ntk ->
  rank_valid ntk (structural_level ntk) /\ rank_bounded ntk (structural_level ntk).
Proof.
  intros W. pose proof W as (_ & R & V & B). split.
  - intros n a b E. destruct (V _ _ _ E) as (Ia & Ib & _ & _).
    rewrite (structural_level_gate _ _ _ _ W E). repeat split; try assumption; lia.
  - intros n L. pose proof (structural_level_le_rank _ _ n V). specialize (B n L). lia.
Qed.

Lemma structural_level_fuel ntk fuel n :
  well_formed ntk -> n < size ntk -> size ntk < fuel ->
  compute_level fuel ntk n = structural_level ntk n.
Proof.
  intros W L F. destruct (structural_rank _ W) as [V B]. specialize (B n L).
  unfold structural_level at 1.
  apply (compute_level_stable _ _ V); lia.
Qed.

Lemma node_value_gate ntk env n a b :
  well_formed ntk -> cell_of ntk n = Gate a b ->
  node_value ntk env n = signal_value ntk env a && signal_value ntk env b.
Proof.
  intros W E. destruct (structural_rank _ W) as [V B].
  unfold signal_value, node_value.
  change (eval_node (S (size ntk)) ntk env n)
    with (match cell_of ntk n with
          | Constant => false
          | Pi => env n
          | Gate a b =>
              xorb (complement a) (eval_node (size ntk) ntk env (index a))
              && xorb (complement b) (eval_node (size ntk) ntk env (index b))
          end).
  rewrite E. destruct (V _ _ _ E) as (_ & _ & Ha & Hb).
  pose proof (B n (cell_of_gate_lt _ _ _ _ E)) as Hn.
  rewrite (eval_node_stable _ _ V env (size ntk) (S (size ntk)) (index a)) by lia.
  rewrite (eval_node_stable _ _ V env (size ntk) (S (size ntk)) (index b)) by lia.
  reflexivity.
Qed.

Lemma node_value_fuel ntk env fuel n :
  well_formed ntk -> n < size ntk -> size ntk < fuel ->
  eval_node fuel ntk env n = node_value ntk env n.
Proof.
  intros W L F. destruct (structural_rank _ W) as [V B]. specialize (B n L).
  unfold node_value. apply (eval_node_stable _ _ V); lia.
Qed.

(** ** The level annotation *)

Lemma level_refresh ntk n : level (refresh ntk) n = structural_level ntk n.
Proof.
  unfold level, refresh, compute_levels. simpl.
  destruct (Nat.lt_ge_cases n (size ntk)) as [L|L].
  - rewrite (nth_indep _ 0 (structural_level ntk 0))
      by (rewrite length_map, length_seq; exact L).
    rewrite map_nth, seq_nth by exact L. reflexivity.
  - rewrite nth_overflow by (rewrite length_map, length_seq; exact L).
    symmetry. now apply structural_level_outside.
Qed.

Lemma compute_level_nodes ntk ntk' :
  nodes ntk' = nodes ntk ->
  forall fuel n, compute_level fuel ntk' n = compute_level fuel ntk n.
Proof.
  intros E. induction fuel as [|f IH]; intros n; simpl; [reflexivity|].
  unfold cell_of. rewrite E.
  destruct (nth n (nodes ntk) Constant); try reflexivity. now rewrite !IH.
Qed.

Lemma compute_levels_nodes ntk ntk' :
  nodes ntk' = nodes ntk -> compute_levels ntk' = compute_levels ntk.
Proof.
  intros E. unfold compute_levels, size. rewrite E.
  apply map_ext. intros n. unfold structural_level, size. rewrite E.
  now apply compute_level_nodes.
Qed.

Lemma eval_node_nodes ntk ntk' env :
  nodes ntk' = nodes ntk ->
  forall fuel n, eval_node fuel ntk' env n = eval_node fuel ntk env n.
Proof.
  intros E. induction fuel as [|f IH]; intros n; simpl; [reflexivity|].
  unfold cell_of. rewrite E.
  destruct (nth n (nodes ntk) Constant); try reflexivity. now rewrite !IH.
Qed.

Lemma node_value_refresh ntk env n :
  node_value (refresh ntk) env n = node_value ntk env n.
Proof. unfold node_value. apply (eval_node_nodes ntk (refresh ntk) env eq_refl). Qed.

Lemma signal_value_refresh ntk env s :
  signal_value (refresh ntk) env s = signal_value ntk env s.
Proof. unfold signal_value. now rewrite node_value_refresh. Qed.

Lemma output_values_refresh ntk env :
  output_values (refresh ntk) env = output_values ntk env.
Proof. unfold output_values. simpl. apply map_ext. apply signal_value_refresh. Qed.

Lemma annotated_level ntk n :
  annotated ntk -> level ntk n = structural_level ntk n.
Proof.
  intros [_ E]. rewrite <- level_refresh. unfold level, refresh. simpl. now rewrite E.
Qed.

Lemma well_formed_nodes ntk ntk' :
  nodes ntk' = nodes ntk -> outputs ntk' = outputs ntk ->
  well_formed ntk -> well_formed ntk'.
Proof.
  intros En Eo (O & R & V & B). unfold well_formed, rank_valid, rank_bounded, cell_of, size.
  rewrite En, Eo. split; [exact O|]. exists R. split; assumption.
Qed.

Lemma annotated_refresh ntk : well_formed ntk -> annotated (refresh ntk).
Proof.
  intros W. split.
  - now apply (well_formed_nodes ntk).
  - simpl. symmetry. now apply compute_levels_nodes.
Qed.

Lemma refresh_annotated ntk : annotated ntk -> refresh ntk = ntk.
Proof.
  intros [_ E]. destruct ntk as [ns dd os ls]. unfold refresh. simpl in *. now rewrite <- E.
Qed.

(** ** Construction only appends to the arena *)

Lemma extends_refl ntk : extends ntk ntk.
Proof. repeat split; try reflexivity. exists []. now rewrite app_nil_r. Qed.

Lemma extends_trans a b c : extends a b -> extends b c -> extends a c.
Proof.
  intros ([x Hx] & D1 & O1 & L1) ([y Hy] & D2 & O2 & L2).
  repeat split; try congruence.
  exists (x ++ y). rewrite Hy, Hx. now rewrite app_assoc.
Qed.

Lemma extends_size ntk ntk1 : extends ntk ntk1 -> size ntk <= size ntk1.
Proof. intros ([x Hx] & _). unfold size. rewrite Hx, length_app. lia. Qed.

Lemma extends_cell ntk ntk1 n :
  extends ntk ntk1 -> n < size ntk -> cell_of ntk1 n = cell_of ntk n.
Proof. intros ([x Hx] & _) L. unfold cell_of. rewrite Hx. now apply app_nth1. Qed.

Lemma extends_compute_level ntk ntk1 :
  well_formed ntk -> extends ntk ntk1 ->
  forall fuel n, n < size ntk -> compute_level fuel ntk1 n = compute_level fuel ntk n.
Proof.
  intros (_ & R & V & _) X. induction fuel as [|f IH]; intros n L; simpl; [reflexivity|].
  rewrite (extends_cell _ _ _ X L).
  destruct (cell_of ntk n) as [| |a b] eqn:E; try reflexivity.
  destruct (V _ _ _ E) as (Ia & Ib & _). now rewrite !IH.
Qed.

Lemma extends_eval_node ntk ntk1 env :
  well_formed ntk -> extends ntk ntk1 ->
  forall fuel n, n < size ntk -> eval_node fuel ntk1 env n = eval_node fuel ntk env n.
Proof.
  intros (_ & R & V & _) X. induction fuel as [|f IH]; intros n L; simpl; [reflexivity|].
  rewrite (extends_cell _ _ _ X L).
  destruct (cell_of ntk n) as [| |a b] eqn:E; try reflexivity.
  destruct (V _ _ _ E) as (Ia & Ib & _). now rewrite !IH.
Qed.

Lemma extends_structural_level ntk ntk1 n :
  well_formed ntk -> extends ntk ntk1 -> n < size ntk ->
  structural_level ntk1 n = structural_level ntk n.
Proof.
  intros W X L. unfold structural_level at 1.
  rewrite (extends_compute_level _ _ W X) by exact L.
  apply structural_level_fuel; try assumption.
  pose proof (extends_size _ _ X). lia.
Qed.

Lemma extends_node_value ntk ntk1 env n :
  well_formed ntk -> extends ntk ntk1 -> n < size ntk ->
  node_value ntk1 env n = node_value ntk env n.
Proof.
  intros W X L. unfold node_value at 1.
  rewrite (extends_eval_node _ _ env W X) by exact L.
  apply node_value_fuel; try assumption.
  pose proof (extends_size _ _ X). lia.
Qed.

Lemma extends_signal_value ntk ntk1 env s :
  well_formed ntk -> extends ntk ntk1 -> index s < size ntk ->
  signal_value ntk1 env s = signal_value ntk env s.
Proof. intros W X L. unfold signal_value. now rewrite (extends_node_value _ _ env _ W X L). Qed.

Lemma find_gate_some dd a b cs : forall i k,
  find_gate dd a b cs i = Some k ->
  i <= k /\ same_fanin a b (nth (k - i) cs Constant) = true.
Proof.
  induction cs as [|c cs IH]; intros i k H; simpl in H; [discriminate|].
  destruct (same_fanin a b c && negb (existsb (Nat.eqb i) dd)) eqn:E.
  - injection H as <-. rewrite Nat.sub_diag. simpl.
    apply andb_true_iff in E. split; [lia | tauto].
  - destruct (IH _ _ H) as [L F]. split; [lia|].
    replace (k - i) with (S (k - S i)) by lia. exact F.
Qed.

Lemma same_fanin_gate a b c :
  same_fanin a b c = true -> c = Gate a b \/ c = Gate b a.
Proof.
  destruct c as [| |x y]; simpl; try discriminate.
  rewrite orb_true_iff, !andb_true_iff.
  intros [[H1 H2]|[H1 H2]]; apply signal_eqb_eq in H1, H2; subst; tauto.
Qed.

Lemma and_node_spec a b ntk s ntk1 :
  well_formed ntk -> index a < size ntk -> index b < size ntk ->
  and_node a b ntk = (s, ntk1) ->
  well_formed ntk1 /\ extends ntk ntk1 /\ complement s = false /\
  (cell_of ntk1 (index s) = Gate a b \/ cell_of ntk1 (index s) = Gate b a).
Proof.
  intros W Ia Ib H. unfold and_node in H.
  destruct (find_gate (dead ntk) a b (nodes ntk) 0) as [i|] eqn:F.
  - injection H as <- <-. apply find_gate_some in F. destruct F as [_ F].
    rewrite Nat.sub_0_r in F. apply same_fanin_gate in F.
    split; [exact W|]. split; [apply extends_refl|]. split; [reflexivity | exact F].
  - injection H as <- <-.
    assert (X : extends ntk (with_nodes ntk (nodes ntk ++ [Gate a b]))).
    { repeat split; try reflexivity. now exists [Gate a b]. }
    assert (C : cell_of (with_nodes ntk (nodes ntk ++ [Gate a b])) (size ntk) = Gate a b).
    { unfold cell_of, size. simpl. rewrite app_nth2 by lia. now rewrite Nat.sub_diag. }
    assert (Z : size (with_nodes ntk (nodes ntk ++ [Gate a b])) = S (size ntk)).
    { unfold size. simpl. rewrite length_app. simpl. lia. }
    split; [split | split; [exact X | split; [reflexivity | now left]]].
    + destruct W as (O & _). simpl. rewrite Z.
      apply Forall_forall. intros o Ho. rewrite Forall_forall in O. specialize (O o Ho). lia.
    + destruct (structural_rank _ W) as [V B].
      exists (fun n => if n =? size ntk
                       then S (Nat.max (structural_level ntk (index a))
                                       (structural_level ntk (index b)))
                       else structural_level ntk n).
      split.
      * intros n x y E. rewrite Z.
        pose proof (cell_of_gate_lt _ _ _ _ E) as Ln. rewrite Z in Ln.
        destruct (Nat.eqb_spec n (size ntk)) as [->|Nn].
        -- rewrite C in E. injection E as <- <-.
           destruct (Nat.eqb_spec (index a) (size ntk)); [lia|].
           destruct (Nat.eqb_spec (index b) (size ntk)); [lia|]. lia.
        -- rewrite (extends_cell _ _ _ X) in E by lia.
           destruct (V _ _ _ E) as (Ix & Iy & Hx & Hy).
           destruct (Nat.eqb_spec (index x) (size ntk)); [lia|].
           destruct (Nat.eqb_spec (index y) (size ntk)); [lia|]. lia.
      * intros n Ln. rewrite Z in *.
        pose proof (B (index a) Ia). pose proof (B (index b) Ib).
        destruct (Nat.eqb_spec n (size ntk)); [lia|].
        assert (n < size ntk) as Ln' by lia. specialize (B n Ln'). lia.
Qed.

(** What a constructed AND is, in terms of the network it was built in. *)
Lemma and_node_props a b ntk s ntk1 :
  well_formed ntk -> index a < size ntk -> index b < size ntk ->
  and_node a b ntk = (s, ntk1) ->
  well_formed ntk1 /\ extends ntk ntk1 /\ complement s = false /\
  index s < size ntk1 /\
  structural_level ntk1 (index s)
  = S (Nat.max (structural_level ntk (index a)) (structural_level ntk (index b))) /\
  forall env, node_value ntk1 env (index s)
              = signal_value ntk env a && signal_value ntk env b.
Proof.
  intros W Ia Ib H. destruct (and_node_spec _ _ _ _ _ W Ia Ib H) as (W1 & X & Cs & G).
  split; [exact W1|]. split; [exact X|]. split; [exact Cs|]. split; [|split].
  - destruct G as [G|G]; exact (cell_of_gate_lt _ _ _ _ G).
  - rewrite <- (extends_structural_level _ _ _ W X Ia),
            <- (extends_structural_level _ _ _ W X Ib).
    destruct G as [G|G]; rewrite (structural_level_gate _ _ _ _ W1 G); lia.
  - intros env.
    rewrite <- (extends_signal_value _ _ env _ W X Ia),
            <- (extends_signal_value _ _ env _ W X Ib).
    destruct G as [G|G]; rewrite (node_value_gate _ env _ _ _ W1 G);
      [reflexivity | apply andb_comm].
Qed.

(** ** Substitution by an equivalent, shallower signal *)

Lemma rewire_cell old new ntk n :
  cell_of (rewire old new ntk) n = replace_in_cell old new (cell_of ntk n).
Proof.
  unfold cell_of, rewire. simpl.
  change Constant with (replace_in_cell old new Constant) at 1.
  apply map_nth.
Qed.

Lemma rewire_size old new ntk : size (rewire old new ntk) = size ntk.
Proof. unfold size, rewire. simpl. apply length_map. Qed.

Section Rewire.
Variables (ntk : network) (old : node) (new : signal).
Hypothesis W : well_formed ntk.
Hypothesis new_range : index new < size ntk.
Hypothesis new_level : structural_level ntk (index new) < structural_level ntk old.

Lemma replace_in_signal_rank a r :
  index a < size ntk -> structural_level ntk (index a) < r ->
  index (replace_in_signal old new a) < size ntk /\
  structural_level ntk (index (replace_in_signal old new a)) < r.
Proof.
  intros Ia Ha. unfold replace_in_signal.
  destruct (Nat.eqb_spec (index a) old) as [E|E]; simpl.
  - subst old. split; [exact new_range | lia].
  - split; assumption.
Qed.

Lemma rewire_rank_valid : rank_valid (rewire old new ntk) (structural_level ntk).
Proof.
  destruct (structural_rank _ W) as [V B].
  intros n a b E. rewrite rewire_cell in E. rewrite rewire_size.
  destruct (cell_of ntk n) as [| |x y] eqn:C; try discriminate.
  simpl in E. injection E as <- <-.
  destruct (V _ _ _ C) as (Ix & Iy & Hx & Hy).
  destruct (replace_in_signal_rank x _ Ix Hx).
  destruct (replace_in_signal_rank y _ Iy Hy). tauto.
Qed.

Lemma rewire_well_formed : well_formed (rewire old new ntk).
Proof.
  split.
  - destruct W as (O & _). rewrite rewire_size. simpl.
    apply Forall_forall. intros o Ho. apply in_map_iff in Ho.
    destruct Ho as (o' & <- & Ho'). rewrite Forall_forall in O. specialize (O _ Ho').
    unfold replace_in_signal. destruct (index o' =? old); simpl; assumption.
  - exists (structural_level ntk). split; [apply rewire_rank_valid|].
    destruct (structural_rank _ W) as [V B].
    intros n L. rewrite rewire_size in *. now apply B.
Qed.

Lemma rewire_structural_level x :
  structural_level (rewire old new ntk) x <= structural_level ntk x.
Proof. apply structural_level_le_rank, rewire_rank_valid. Qed.

(** Below the level of [old], nothing refers to [old]. *)
Lemma rewire_compute_level_below : forall fuel x,
  structural_level ntk x < structural_level ntk old ->
  compute_level fuel (rewire old new ntk) x = compute_level fuel ntk x.
Proof.
  destruct (structural_rank _ W) as [V B].
  induction fuel as [|f IH]; intros x Hx; [reflexivity|].
  simpl. rewrite rewire_cell.
  destruct (cell_of ntk x) as [| |a b] eqn:C; try reflexivity.
  destruct (V _ _ _ C) as (_ & _ & Ha & Hb). simpl.
  unfold replace_in_signal.
  destruct (Nat.eqb_spec (index a) old) as [Ea|Ea]; [subst old; lia|].
  destruct (Nat.eqb_spec (index b) old) as [Eb|Eb]; [subst old; lia|].
  rewrite !IH by lia. reflexivity.
Qed.

Lemma rewire_structural_level_below x :
  structural_level ntk x < structural_level ntk old ->
  structural_level (rewire old new ntk) x = structural_level ntk x.
Proof.
  intros Hx. unfold structural_level. rewrite rewire_size.
  now apply rewire_compute_level_below.
Qed.

Hypothesis new_value :
  forall env, signal_value ntk env new = node_value ntk env old.

Lemma replace_in_signal_value env a :
  signal_value ntk env (replace_in_signal old new a) = signal_value ntk env a.
Proof.
  unfold replace_in_signal.
  destruct (Nat.eqb_spec (index a) old) as [E|E]; [|reflexivity].
  unfold signal_value at 1 2. simpl. rewrite E, <- new_value.
  unfold signal_value.
  destruct (complement new), (complement a), (node_value ntk env (index new)); reflexivity.
Qed.

Lemma rewire_eval_node env : forall fuel x,
  structural_level ntk x < fuel ->
  eval_node fuel (rewire old new ntk) env x = node_value ntk env x.
Proof.
  destruct (structural_rank _ W) as [V B].
  induction fuel as [|f IH]; intros x Hx; [lia|].
  simpl. rewrite rewire_cell.
  destruct (cell_of ntk x) as [| |a b] eqn:C; simpl.
  - unfold node_value. simpl. now rewrite C.
  - unfold node_value. simpl. now rewrite C.
  - destruct (V _ _ _ C) as (Ia & Ib & Ha & Hb).
    destruct (replace_in_signal_rank a _ Ia Ha) as [_ Ha'].
    destruct (replace_in_signal_rank b _ Ib Hb) as [_ Hb'].
    rewrite !IH by lia.
    rewrite (node_value_gate _ env _ _ _ W C).
    rewrite <- (replace_in_signal_value env a), <- (replace_in_signal_value env b).
    reflexivity.
Qed.

Lemma rewire_node_value env x :
  node_value (rewire old new ntk) env x = node_value ntk env x.
Proof.
  unfold node_value at 1. apply rewire_eval_node. rewrite rewire_size.
  destruct (structural_rank _ W) as [V B].
  destruct (Nat.lt_ge_cases x (size ntk)) as [L|L].
  - specialize (B x L). lia.
  - rewrite structural_level_outside by exact L. lia.
Qed.

End Rewire.

(** ** The code of the rules refines pattern and action *)

Ltac rule_cases :=
  repeat (cbn [negb andb orb Bool.eqb Nat.eqb]; cbv beta iota;
          match goal with
          | |- context [match cell_of ?g ?n with _ => _ end] =>
              destruct (cell_of g n) eqn:?
          | |- context [?a <? ?b] => destruct (Nat.ltb_spec a b)
          | |- context [?a <=? ?b] => destruct (Nat.leb_spec a b)
          | |- context [?a =? ?b] => destruct (Nat.eqb_spec a b)
          | |- context [complement ?s] => destruct (complement s) eqn:?
          end);
  cbn [negb andb orb Bool.eqb]; cbv beta iota;
  repeat match goal with
         | H1 : cell_of ?g ?n = _, H2 : cell_of ?g ?n = _ |- _ => rewrite H1 in H2
         | H : Gate _ _ = Gate _ _ |- _ => injection H as ? ?; subst
         end;
  try reflexivity; try lia; try congruence.

Ltac unfold_rule :=
  unfold extract_and, operands, fanin_size, fanins, get_node, is_complemented,
    orient, slevel, ret.

Lemma try_associativity_refines n ntk :
  try_associativity n ntk
  = match assoc_pattern ntk n with
    | Some (l, rl, rr) => assoc_action n l rl rr ntk
    | None => (false, ntk, [])
    end.
Proof.
  unfold try_associativity, assoc_pattern, assoc_action. unfold_rule.
  rule_cases.
Qed.

Lemma try_distributivity_refines n ntk :
  try_distributivity n ntk
  = match dist_pattern ntk n with
    | Some (d1, common, d2) => dist_action n d1 common d2 ntk
    | None => (false, ntk, [])
    end.
Proof.
  unfold try_distributivity, dist_pattern, dist_action, normalize_common, shared_node.
  unfold_rule. rule_cases.
Qed.

Lemma try_3l_distributivity_refines n ntk :
  try_3l_distributivity n ntk
  = match dist3_pattern ntk n with
    | Some (l, rl, rrl, rrr) => dist3_action n l rl rrl rrr ntk
    | None => (false, ntk, [])
    end.
Proof.
  unfold try_3l_distributivity, dist3_pattern, dist3_action.
  unfold_rule. rule_cases.
Qed.

(** ** What a match says about the network *)

Ltac pattern_cases H :=
  repeat (cbn [negb andb orb Bool.eqb] in H; cbv beta iota in H;
          match type of H with
          | context [match cell_of ?g ?n with _ => _ end] =>
              destruct (cell_of g n) eqn:?
          | context [?a <? ?b] => destruct (Nat.ltb_spec a b)
          | context [?a =? ?b] => destruct (Nat.eqb_spec a b)
          | context [complement ?s] => destruct (complement s) eqn:?
          end);
  cbn [negb andb orb Bool.eqb] in H; cbv beta iota in H;
  try discriminate H.

Lemma assoc_pattern_inv ntk n l rl rr :
  assoc_pattern ntk n = Some (l, rl, rr) ->
  exists r,
    (cell_of ntk n = Gate l r \/ cell_of ntk n = Gate r l) /\
    (cell_of ntk (index r) = Gate rl rr \/ cell_of ntk (index r) = Gate rr rl) /\
    slevel ntk l + 1 < slevel ntk r /\
    complement r = false /\
    slevel ntk rl < slevel ntk rr.
Proof.
  unfold assoc_pattern, operands, orient, slevel. intros H.
  pattern_cases H; injection H as <- <- <-;
    eexists; (split; [eauto|]); (split; [eauto|]); repeat split;
    try assumption; try lia.
Qed.

Ltac orient_cases :=
  unfold orient, slevel in *;
  repeat match goal with
         | |- context [?a <? ?b] => destruct (Nat.ltb_spec a b); try lia
         | |- context [?a =? ?b] => destruct (Nat.eqb_spec a b); try lia
         | H : cell_of ?g ?n = _ |- context [cell_of ?g ?n] => rewrite H
         | H : complement ?s = _ |- context [complement ?s] => rewrite H
         | _ => progress (cbn [negb andb]; cbv beta iota)
         end;
  try reflexivity.

Lemma assoc_pattern_complete ntk n l rl rr r :
  (cell_of ntk n = Gate l r \/ cell_of ntk n = Gate r l) ->
  (cell_of ntk (index r) = Gate rl rr \/ cell_of ntk (index r) = Gate rr rl) ->
  slevel ntk l + 1 < slevel ntk r ->
  complement r = false ->
  slevel ntk rl < slevel ntk rr ->
  assoc_pattern ntk n = Some (l, rl, rr).
Proof.
  intros [Gn|Gn] [Gr|Gr] H1 Cr H2; unfold assoc_pattern, operands; orient_cases.
Qed.

Lemma dist_pattern_inv ntk n d1 c d2 :
  dist_pattern ntk n = Some (d1, c, d2) ->
  exists L R,
    cell_of ntk n = Gate L R /\ complement L = true /\ complement R = true /\
    (cell_of ntk (index L) = Gate d1 c \/ cell_of ntk (index L) = Gate c d1) /\
    (cell_of ntk (index R) = Gate c d2 \/ cell_of ntk (index R) = Gate d2 c) /\
    slevel ntk d1 < slevel ntk c /\ slevel ntk d2 < slevel ntk c.
Proof.
  unfold dist_pattern, operands, shared_node, slevel. intros H.
  destruct (cell_of ntk n) as [| |L R] eqn:Cn; try discriminate.
  destruct (complement L) eqn:CL; [|discriminate].
  destruct (complement R) eqn:CR; [|discriminate].
  cbn [andb] in H.
  destruct (cell_of ntk (index L)) as [| |A B] eqn:Cl; try discriminate.
  destruct (cell_of ntk (index R)) as [| |C D] eqn:Cr; try discriminate.
  exists L, R.
  assert (Q : forall x y : signal,
             index x = index y -> Bool.eqb (complement x) (complement y) = true -> x = y).
  { intros [i p] [j q]. simpl. intros -> E. apply eqb_prop in E. now subst. }
  destruct (Nat.eqb_spec (index A) (index D)) as [E|E];
    [|destruct (Nat.eqb_spec (index A) (index C)) as [E'|E'];
      [|destruct (Nat.eqb_spec (index B) (index D)) as [E''|E''];
        [|destruct (Nat.eqb_spec (index B) (index C)) as [E3|E3]; [|discriminate]]]];
    match type of H with
    | (if ?a && ?b && ?c then _ else _) = _ =>
        destruct a eqn:Ha; [|discriminate];
        destruct b eqn:Hb; [|discriminate];
        destruct c eqn:Hc; [|discriminate]
    end;
    cbn [andb] in H; injection H as <- <- <-;
    apply Nat.ltb_lt in Ha, Hb;
    match goal with
    | E : index ?x = index ?y, Hc : Bool.eqb (complement ?x) (complement ?y) = true |- _ =>
        pose proof (Q x y E Hc); subst
    end; tauto.
Qed.

Lemma dist3_pattern_inv ntk n l rl rrl rrr :
  dist3_pattern ntk n = Some (l, rl, rrl, rrr) ->
  exists r rr,
    (cell_of ntk n = Gate l r \/ cell_of ntk n = Gate r l) /\
    (cell_of ntk (index r) = Gate rl rr \/ cell_of ntk (index r) = Gate rr rl) /\
    (cell_of ntk (index rr) = Gate rrl rrr \/ cell_of ntk (index rr) = Gate rrr rrl) /\
    slevel ntk l + 2 < slevel ntk r /\ complement r = true /\
    slevel ntk rl + 1 < slevel ntk rr /\ complement rr = true /\
    slevel ntk rrl < slevel ntk rrr.
Proof.
  unfold dist3_pattern, operands, orient, slevel. intros H.
  pattern_cases H; injection H as <- <- <- <-;
    eexists; eexists; (split; [eauto|]); (split; [eauto|]); (split; [eauto|]);
    repeat split; try assumption; try lia.
Qed.

Lemma dist3_pattern_complete ntk n l rl rrl rrr r rr :
  (cell_of ntk n = Gate l r \/ cell_of ntk n = Gate r l) ->
  (cell_of ntk (index r) = Gate rl rr \/ cell_of ntk (index r) = Gate rr rl) ->
  (cell_of ntk (index rr) = Gate rrl rrr \/ cell_of ntk (index rr) = Gate rrr rrl) ->
  slevel ntk l + 2 < slevel ntk r -> complement r = true ->
  slevel ntk rl + 1 < slevel ntk rr -> complement rr = true ->
  slevel ntk rrl < slevel ntk rrr ->
  dist3_pattern ntk n = Some (l, rl, rrl, rrr).
Proof.
  intros [Gn|Gn] [Gr|Gr] [Grr|Grr] H1 Cr H2 Crr H3;
    unfold dist3_pattern, operands; orient_cases.
Qed.

Lemma gate_facts ntk n a b :
  well_formed ntk ->
  cell_of ntk n = Gate a b \/ cell_of ntk n = Gate b a ->
  index a < size ntk /\ index b < size ntk /\ n < size ntk /\
  structural_level ntk n
  = S (Nat.max (structural_level ntk (index a)) (structural_level ntk (index b))) /\
  forall env, node_value ntk env n = signal_value ntk env a && signal_value ntk env b.
Proof.
  intros W [G|G]; pose proof W as (_ & R & V & _);
    destruct (V _ _ _ G) as (I1 & I2 & _);
    pose proof (cell_of_gate_lt _ _ _ _ G);
    rewrite (structural_level_gate _ _ _ _ W G);
    repeat split; try assumption; try lia;
    intros env; rewrite (node_value_gate _ env _ _ _ W G);
    [reflexivity | apply andb_comm].
Qed.

(** ** A rewrite: construction, then substitution *)

Lemma commit ntk ntkk n s :
  well_formed ntk -> well_formed ntkk -> extends ntk ntkk ->
  n < size ntk -> index s < size ntkk ->
  structural_level ntkk (index s) < structural_level ntk n ->
  (forall env, signal_value ntkk env s = node_value ntk env n) ->
  size ntkk <= size ntk + 4 ->
  (forall x, size ntk <= x -> x < size ntkk ->
             structural_level ntkk x < structural_level ntk n) ->
  rewritten ntk n s (rewire n s ntkk).
Proof.
  intros W Wk X Ln Ls Hl Hv Hg Hf.
  pose proof (extends_size _ _ X) as Z.
  assert (Hl' : structural_level ntkk (index s) < structural_level ntkk n)
    by now rewrite (extends_structural_level _ _ _ W X Ln).
  assert (Hv' : forall env, signal_value ntkk env s = node_value ntkk env n)
    by (intros env; now rewrite (extends_node_value _ _ env _ W X Ln)).
  constructor.
  - rewrite rewire_size. exact Z.
  - now apply rewire_well_formed.
  - intros x Lx. rewrite <- (extends_structural_level _ _ _ W X Lx).
    now apply rewire_structural_level.
  - intros env x Lx. rewrite <- (extends_node_value _ _ env _ W X Lx).
    now apply rewire_node_value.
  - destruct X as (_ & _ & O & _). simpl. now rewrite O.
  - now rewrite rewire_size.
  - pose proof (rewire_structural_level ntkk n s Wk Ls Hl' (index s)). lia.
  - intros env. rewrite <- Hv. unfold signal_value.
    now rewrite (rewire_node_value ntkk n s Wk Ls Hl' Hv').
  - now rewrite rewire_size.
  - intros x L1 L2. rewrite rewire_size in L2. specialize (Hf x L1 L2).
    pose proof (rewire_structural_level ntkk n s Wk Ls Hl' x). lia.
  - destruct X as (_ & D & _). simpl. now rewrite D.
  - intros x Lx. unfold is_gate. rewrite rewire_cell, (extends_cell _ _ _ X Lx).
    now destruct (cell_of ntk x).
Qed.

Lemma commit_level ntk ntkk n s :
  well_formed ntk -> well_formed ntkk -> extends ntk ntkk ->
  n < size ntk -> index s < size ntkk ->
  structural_level ntkk (index s) < structural_level ntk n ->
  structural_level (rewire n s ntkk) (index s) = structural_level ntkk (index s).
Proof.
  intros W Wk X Ln Ls Hl.
  apply rewire_structural_level_below; try assumption;
    now rewrite (extends_structural_level _ _ _ W X Ln).
Qed.

(** Consequences for the outputs, once the levels are refreshed. *)

Lemma depth_le ntk ntk' (f : signal -> signal) :
  outputs ntk' = map f (outputs ntk) ->
  (forall o, In o (outputs ntk) -> level ntk' (index (f o)) <= level ntk (index o)) ->
  depth ntk' <= depth ntk.
Proof.
  unfold depth. intros -> H. rewrite map_map.
  induction (outputs ntk) as [|o os IH]; simpl; [lia|].
  pose proof (H o (or_introl eq_refl)).
  assert (forall o', In o' os -> level ntk' (index (f o')) <= level ntk (index o'))
    by (intros o' Ho'; apply H; now right).
  specialize (IH H1). lia.
Qed.

Lemma rewritten_annotated ntk n s ntk' :
  rewritten ntk n s ntk' -> annotated (refresh ntk').
Proof. intros RW. apply annotated_refresh, RW. Qed.

Lemma rewritten_output_values ntk n s ntk' env :
  well_formed ntk -> rewritten ntk n s ntk' ->
  output_values (refresh ntk') env = output_values ntk env.
Proof.
  intros (O & _) RW. unfold output_values. simpl.
  rewrite (rw_outputs _ _ _ _ RW), map_map.
  apply map_ext_in. intros o Ho. rewrite Forall_forall in O. specialize (O o Ho).
  pose proof (signal_value_refresh ntk' env) as E.
  rewrite E. unfold replace_in_signal.
  destruct (Nat.eqb_spec (index o) n) as [En|En].
  - pose proof (rw_new_value _ _ _ _ RW env) as V. unfold signal_value in *.
    simpl. rewrite En, <- V.
    destruct (complement s), (complement o), (node_value ntk' env (index s)); reflexivity.
  - unfold signal_value. now rewrite (rw_value _ _ _ _ RW env _ O).
Qed.

Lemma rewritten_depth ntk n s ntk' :
  annotated ntk -> rewritten ntk n s ntk' -> depth (refresh ntk') <= depth ntk.
Proof.
  intros A RW. pose proof A as [(O & _) _].
  apply (depth_le _ _ (replace_in_signal n s)).
  - simpl. apply (rw_outputs _ _ _ _ RW).
  - intros o Ho. rewrite Forall_forall in O. specialize (O o Ho).
    rewrite level_refresh, (annotated_level _ _ A).
    unfold replace_in_signal. destruct (Nat.eqb_spec (index o) n) as [En|En]; simpl.
    + pose proof (rw_new_level _ _ _ _ RW). subst n. lia.
    + now apply (rw_level _ _ _ _ RW).
Qed.

(** ** The three actions *)

Lemma signal_value_negate ntk env s :
  signal_value ntk env (negate s) = negb (signal_value ntk env s).
Proof. unfold signal_value, negate. simpl. now destruct (complement s), (node_value ntk env (index s)). Qed.

Lemma signal_value_plain ntk env s :
  complement s = false -> signal_value ntk env s = node_value ntk env (index s).
Proof. unfold signal_value. now intros ->. Qed.

Lemma signal_value_inverted ntk env s :
  complement s = true -> signal_value ntk env s = negb (node_value ntk env (index s)).
Proof. unfold signal_value. now intros ->. Qed.

Lemma and_node_growth a b ntk s ntk1 :
  and_node a b ntk = (s, ntk1) ->
  size ntk1 <= S (size ntk) /\
  forall x, size ntk <= x -> x < size ntk1 -> x = index s.
Proof.
  unfold and_node. destruct (find_gate (dead ntk) a b (nodes ntk) 0); intros H;
    injection H as <- <-.
  - split; [lia | intros x; lia].
  - unfold size. simpl. rewrite length_app. simpl. split; [lia | intros x; lia].
Qed.

(** One construction step inside a rule: [ntk0] is the network the rule
    started from, [ntk] the current one. *)
Lemma and_step ntk0 ntk a b s ntk1 :
  well_formed ntk -> extends ntk0 ntk ->
  index a < size ntk -> index b < size ntk ->
  and_node a b ntk = (s, ntk1) ->
  well_formed ntk1 /\ extends ntk0 ntk1 /\ extends ntk ntk1 /\
  index s < size ntk1 /\
  structural_level ntk1 (index s)
  = S (Nat.max (structural_level ntk (index a)) (structural_level ntk (index b))) /\
  forall env, signal_value ntk1 env s
              = signal_value ntk env a && signal_value ntk env b.
Proof.
  intros W X Ia Ib H.
  destruct (and_node_props _ _ _ _ _ W Ia Ib H) as (W1 & X1 & C & I & L & V).
  repeat (split; [first [assumption | now apply (extends_trans _ ntk)]|]).
  intros env. rewrite (signal_value_plain _ _ _ C). apply V.
Qed.

(** De Morgan: the NAND of two negations is the disjunction. *)
Lemma nand_of_nots_value ntk d1 d2 orAB ntk1 es :
  well_formed ntk -> index d1 < size ntk -> index d2 < size ntk ->
  (notA <- create_not d1 ;; notB <- create_not d2 ;; create_nand notA notB) ntk
  = (orAB, ntk1, es) ->
  forall env, signal_value ntk1 env orAB
              = signal_value ntk env d1 || signal_value ntk env d2.
Proof.
  intros W I1 I2 H env. unfold bind, create_not, create_nand in H.
  destruct (and_node (negate d1) (negate d2) ntk) as [s1 g1] eqn:E.
  injection H as <- <- <-.
  destruct (and_step ntk ntk (negate d1) (negate d2) _ _ W (extends_refl _) I1 I2 E)
    as (_ & _ & _ & _ & _ & V).
  rewrite signal_value_negate, V, !signal_value_negate.
  now destruct (signal_value ntk env d1), (signal_value ntk env d2).
Qed.

Lemma assoc_action_spec ntk n l rl rr :
  annotated ntk -> assoc_pattern ntk n = Some (l, rl, rr) ->
  exists ntk' inner s,
    assoc_action n l rl rr ntk
    = (true, ntk', [EvCreateAnd l rl; EvCreateAnd inner rr; EvSubstitute n s]) /\
    rewritten ntk n s ntk' /\
    structural_level ntk n = structural_level ntk (index rr) + 2 /\
    structural_level ntk' (index s) = structural_level ntk (index rr) + 1.
Proof.
  intros A P. pose proof A as [W _].
  destruct (assoc_pattern_inv _ _ _ _ _ P) as (r & Gn & Gr & H1 & Cr & H2).
  unfold slevel in *. rewrite !(annotated_level _ _ A) in *.
  destruct (gate_facts _ _ _ _ W Gn) as (Il & Ir & In_ & Ln & Vn).
  destruct (gate_facts _ _ _ _ W Gr) as (Irl & Irr & _ & Lr & Vr).
  unfold assoc_action, bind, create_and, substitute_node, ret.
  destruct (and_node l rl ntk) as [inner ntk1] eqn:E1.
  destruct (and_step ntk _ _ _ _ _ W (extends_refl _) Il Irl E1)
    as (W1 & X1 & _ & I1 & L1 & V1).
  pose proof (extends_size _ _ X1) as Z1.
  destruct (and_node inner rr ntk1) as [new ntk2] eqn:E2.
  assert (Irr1 : index rr < size ntk1) by lia.
  destruct (and_step ntk _ _ _ _ _ W1 X1 I1 Irr1 E2)
    as (W2 & X2 & X12 & I2 & L2 & V2).
  rewrite (extends_structural_level _ _ _ W X1 Irr) in L2.
  destruct (and_node_growth _ _ _ _ _ E1) as [G1 F1].
  destruct (and_node_growth _ _ _ _ _ E2) as [G2 F2].
  assert (RW : rewritten ntk n new (rewire n new ntk2)).
  { apply commit; try assumption.
    - lia.
    - intros env. rewrite V2, V1, (extends_signal_value _ _ env _ W X1 Irr).
      rewrite Vn, (signal_value_plain _ _ _ Cr), Vr. symmetry. apply andb_assoc.
    - lia.
    - intros x Lx Ux. destruct (Nat.lt_ge_cases x (size ntk1)) as [Q|Q].
      + rewrite (extends_structural_level _ _ _ W1 X12 Q).
        rewrite (F1 x Lx Q). lia.
      + rewrite (F2 x Q Ux). lia. }
  exists (rewire n new ntk2), inner, new.
  split; [reflexivity|]. split; [exact RW|]. split; [lia|].
  rewrite (commit_level ntk ntk2 n new) by (try assumption; lia). lia.
Qed.

Ltac split_values :=
  repeat match goal with
         | |- context [signal_value ?g ?e ?s] => destruct (signal_value g e s)
         end; reflexivity.

Lemma dist_action_spec ntk n d1 c d2 :
  annotated ntk -> dist_pattern ntk n = Some (d1, c, d2) ->
  exists ntk' orAB s,
    dist_action n d1 c d2 ntk
    = (true, ntk',
       [EvCreateNot d1; EvCreateNot d2; EvCreateNand (negate d1) (negate d2);
        EvCreateNand c orAB; EvSubstitute n s]) /\
    rewritten ntk n s ntk' /\
    structural_level ntk n = structural_level ntk (index c) + 2 /\
    structural_level ntk' (index s) = structural_level ntk (index c) + 1.
Proof.
  intros A P. pose proof A as [W _].
  destruct (dist_pattern_inv _ _ _ _ _ P) as (L & R & Gn & CL & CR & Gl & Gr & H1 & H2).
  unfold slevel in *. rewrite !(annotated_level _ _ A) in *.
  destruct (gate_facts _ _ _ _ W (or_introl Gn)) as (IL & IR & In_ & Ln & Vn).
  destruct (gate_facts _ _ _ _ W Gl) as (Id1 & Ic & _ & Ll & Vl).
  destruct (gate_facts _ _ _ _ W Gr) as (_ & Id2 & _ & Lr & Vr).
  unfold dist_action, bind, create_not, create_nand, substitute_node, ret.
  destruct (and_node (negate d1) (negate d2) ntk) as [s1 ntk1] eqn:E1.
  destruct (and_step ntk ntk (negate d1) (negate d2) _ _ W (extends_refl _) Id1 Id2 E1)
    as (W1 & X1 & _ & I1 & L1 & V1).
  pose proof (extends_size _ _ X1) as Z1.
  destruct (and_node c (negate s1) ntk1) as [s2 ntk2] eqn:E2.
  assert (Ic1 : index c < size ntk1) by lia.
  destruct (and_step ntk ntk1 c (negate s1) _ _ W1 X1 Ic1 I1 E2)
    as (W2 & X2 & X12 & I2 & L2 & V2).
  rewrite (extends_structural_level _ _ _ W X1 Ic) in L2. simpl in L1, L2.
  destruct (and_node_growth _ _ _ _ _ E1) as [G1 F1].
  destruct (and_node_growth _ _ _ _ _ E2) as [G2 F2].
  assert (RW : rewritten ntk n (negate s2) (rewire n (negate s2) ntk2)).
  { apply commit; try assumption.
    - simpl. lia.
    - intros env. rewrite signal_value_negate, V2, signal_value_negate, V1,
        !signal_value_negate, (extends_signal_value _ _ env _ W X1 Ic).
      rewrite Vn, (signal_value_inverted _ _ _ CL), (signal_value_inverted _ _ _ CR), Vl, Vr.
      split_values.
    - lia.
    - intros x Lx Ux. destruct (Nat.lt_ge_cases x (size ntk1)) as [Q|Q].
      + rewrite (extends_structural_level _ _ _ W1 X12 Q).
        rewrite (F1 x Lx Q). lia.
      + rewrite (F2 x Q Ux). lia. }
  exists (rewire n (negate s2) ntk2), (negate s1), (negate s2).
  split; [reflexivity|]. split; [exact RW|]. split; [lia|].
  rewrite (commit_level ntk ntk2 n (negate s2)) by (try assumption; simpl; lia).
  simpl. lia.
Qed.

Lemma dist3_action_spec ntk n l rl rrl rrr :
  annotated ntk -> dist3_pattern ntk n = Some (l, rl, rrl, rrr) ->
  exists ntk' newL innerR newR s,
    dist3_action n l rl rrl rrr ntk
    = (true, ntk',
       [EvCreateNot rl; EvCreateNand l (negate rl); EvCreateAnd l rrl;
        EvCreateNand innerR rrr; EvCreateNand newL newR; EvSubstitute n s]) /\
    rewritten ntk n s ntk' /\
    structural_level ntk n = structural_level ntk (index rrr) + 3 /\
    structural_level ntk' (index s) = structural_level ntk (index rrr) + 2.
Proof.
  intros A P. pose proof A as [W _].
  destruct (dist3_pattern_inv _ _ _ _ _ _ P)
    as (r & rr & Gn & Gr & Grr & H1 & Cr & H2 & Crr & H3).
  unfold slevel in *. rewrite !(annotated_level _ _ A) in *.
  destruct (gate_facts _ _ _ _ W Gn) as (Il & Ir & In_ & Ln & Vn).
  destruct (gate_facts _ _ _ _ W Gr) as (Irl & Irr & _ & Lr & Vr).
  destruct (gate_facts _ _ _ _ W Grr) as (Irrl & Irrr & _ & Lrr & Vrr).
  unfold dist3_action, bind, create_not, create_nand, create_and, substitute_node, ret.
  destruct (and_node l (negate rl) ntk) as [s1 ntk1] eqn:E1.
  destruct (and_step ntk ntk l (negate rl) _ _ W (extends_refl _) Il Irl E1)
    as (W1 & X1 & _ & I1 & L1 & V1).
  pose proof (extends_size _ _ X1) as Z1.
  destruct (and_node l rrl ntk1) as [s2 ntk2] eqn:E2.
  assert (Il1 : index l < size ntk1) by lia.
  assert (Irrl1 : index rrl < size ntk1) by lia.
  destruct (and_step ntk _ _ _ _ _ W1 X1 Il1 Irrl1 E2)
    as (W2 & X2 & X12 & I2 & L2 & V2).
  pose proof (extends_size _ _ X2) as Z2. pose proof (extends_size _ _ X12) as Z12.
  destruct (and_node s2 rrr ntk2) as [s3 ntk3] eqn:E3.
  assert (Irrr2 : index rrr < size ntk2) by lia.
  destruct (and_step ntk _ _ _ _ _ W2 X2 I2 Irrr2 E3)
    as (W3 & X3 & X23 & I3 & L3 & V3).
  pose proof (extends_size _ _ X23) as Z23.
  destruct (and_node (negate s1) (negate s3) ntk3) as [s4 ntk4] eqn:E4.
  assert (I13 : index s1 < size ntk3) by lia.
  destruct (and_step ntk ntk3 (negate s1) (negate s3) _ _ W3 X3 I13 I3 E4)
    as (W4 & X4 & X34 & I4 & L4 & V4).
  destruct (and_node_growth _ _ _ _ _ E1) as [G1 F1].
  destruct (and_node_growth _ _ _ _ _ E2) as [G2 F2].
  destruct (and_node_growth _ _ _ _ _ E3) as [G3 F3].
  destruct (and_node_growth _ _ _ _ _ E4) as [G4 F4].
  assert (X14 : extends ntk1 ntk4)
    by (apply (extends_trans _ ntk3); [now apply (extends_trans _ ntk2) | exact X34]).
  assert (X24 : extends ntk2 ntk4) by now apply (extends_trans _ ntk3).
  simpl in L1, L4.
  rewrite (extends_structural_level _ _ _ W X1 Il),
          (extends_structural_level _ _ _ W X1 Irrl) in L2.
  rewrite (extends_structural_level _ _ _ W X2 Irrr) in L3.
  assert (X13 : extends ntk1 ntk3) by now apply (extends_trans _ ntk2).
  rewrite (extends_structural_level _ _ _ W1 X13 I1) in L4.
  assert (RW : rewritten ntk n (negate s4) (rewire n (negate s4) ntk4)).
  { apply commit; try assumption.
    - simpl. lia.
    - intros env. rewrite signal_value_negate, V4, !signal_value_negate, V3, V2.
      rewrite (extends_signal_value _ _ env _ W1 X13 I1), V1, signal_value_negate.
      rewrite (extends_signal_value _ _ env _ W X1 Il),
              (extends_signal_value _ _ env _ W X1 Irrl),
              (extends_signal_value _ _ env _ W X2 Irrr).
      rewrite Vn, (signal_value_inverted _ _ _ Cr), Vr,
              (signal_value_inverted _ _ _ Crr), Vrr.
      split_values.
    - lia.
    - intros x Lx Ux. destruct (Nat.lt_ge_cases x (size ntk1)) as [Q1|Q1].
      { rewrite (extends_structural_level _ _ _ W1 X14 Q1), (F1 x Lx Q1). lia. }
      destruct (Nat.lt_ge_cases x (size ntk2)) as [Q2|Q2].
      { rewrite (extends_structural_level _ _ _ W2 X24 Q2), (F2 x Q1 Q2). lia. }
      destruct (Nat.lt_ge_cases x (size ntk3)) as [Q3|Q3].
      { rewrite (extends_structural_level _ _ _ W3 X34 Q3), (F3 x Q2 Q3). lia. }
      rewrite (F4 x Q3 Ux). lia. }
  exists (rewire n (negate s4) ntk4), (negate s1), s2, (negate s3), (negate s4).
  split; [reflexivity|]. split; [exact RW|]. split; [lia|].
  rewrite (commit_level ntk ntk4 n (negate s4)) by (try assumption; simpl; lia).
  simpl. lia.
Qed.

(** ** The shape and the outcome of a rule attempt *)

Lemma and_node_extends a b ntk s ntk1 :
  and_node a b ntk = (s, ntk1) -> extends ntk ntk1.
Proof.
  unfold and_node. destruct (find_gate (dead ntk) a b (nodes ntk) 0); intros H;
    injection H as <- <-.
  - apply extends_refl.
  - repeat split; try reflexivity. now exists [Gate a b].
Qed.

Lemma assoc_action_attempt n l rl rr ntk : attempt ntk n (assoc_action n l rl rr ntk).
Proof.
  unfold assoc_action, bind, create_and, substitute_node, ret.
  destruct (and_node l rl ntk) as [inner ntk1] eqn:E1.
  destruct (and_node inner rr ntk1) as [new ntk2] eqn:E2.
  apply (attempt_fired ntk n [EvCreateAnd l rl; EvCreateAnd inner rr]); [reflexivity|].
  eapply extends_trans; eapply and_node_extends; eassumption.
Qed.

Lemma dist_action_attempt n d1 c d2 ntk : attempt ntk n (dist_action n d1 c d2 ntk).
Proof.
  unfold dist_action, bind, create_not, create_nand, substitute_node, ret.
  destruct (and_node (negate d1) (negate d2) ntk) as [s1 ntk1] eqn:E1.
  destruct (and_node c (negate s1) ntk1) as [s2 ntk2] eqn:E2.
  apply (attempt_fired ntk n
           [EvCreateNot d1; EvCreateNot d2; EvCreateNand (negate d1) (negate d2);
            EvCreateNand c (negate s1)]); [reflexivity|].
  eapply extends_trans; eapply and_node_extends; eassumption.
Qed.

Lemma dist3_action_attempt n l rl rrl rrr ntk :
  attempt ntk n (dist3_action n l rl rrl rrr ntk).
Proof.
  unfold dist3_action, bind, create_not, create_nand, create_and, substitute_node, ret.
  destruct (and_node l (negate rl) ntk) as [s1 ntk1] eqn:E1.
  destruct (and_node l rrl ntk1) as [s2 ntk2] eqn:E2.
  destruct (and_node s2 rrr ntk2) as [s3 ntk3] eqn:E3.
  destruct (and_node (negate s1) (negate s3) ntk3) as [s4 ntk4] eqn:E4.
  apply (attempt_fired ntk n
           [EvCreateNot rl; EvCreateNand l (negate rl); EvCreateAnd l rrl;
            EvCreateNand s2 rrr; EvCreateNand (negate s1) (negate s3)]); [reflexivity|].
  apply and_node_extends in E1, E2, E3, E4.
  eauto using extends_trans.
Qed.

Ltac run_action :=
  unfold assoc_action, dist_action, dist3_action, bind, create_not, create_nand,
    create_and, substitute_node, ret;
  repeat match goal with
         | |- context [and_node ?a ?b ?g] => destruct (and_node a b g)
         end;
  reflexivity.

Lemma assoc_action_fires n l rl rr ntk :
  fst (fst (assoc_action n l rl rr ntk)) = true.
Proof. run_action. Qed.

Lemma dist_action_fires n d1 c d2 ntk :
  fst (fst (dist_action n d1 c d2 ntk)) = true.
Proof. run_action. Qed.

Lemma dist3_action_fires n l rl rrl rrr ntk :
  fst (fst (dist3_action n l rl rrl rrr ntk)) = true.
Proof. run_action. Qed.

Lemma try_associativity_attempt n ntk : attempt ntk n (try_associativity n ntk).
Proof.
  rewrite try_associativity_refines.
  destruct (assoc_pattern ntk n) as [[[l rl] rr]|];
    [apply assoc_action_attempt | constructor].
Qed.

Lemma try_distributivity_attempt n ntk : attempt ntk n (try_distributivity n ntk).
Proof.
  rewrite try_distributivity_refines.
  destruct (dist_pattern ntk n) as [[[d1 c] d2]|];
    [apply dist_action_attempt | constructor].
Qed.

Lemma try_3l_distributivity_attempt n ntk : attempt ntk n (try_3l_distributivity n ntk).
Proof.
  rewrite try_3l_distributivity_refines.
  destruct (dist3_pattern ntk n) as [[[[l rl] rrl] rrr]|];
    [apply dist3_action_attempt | constructor].
Qed.

Lemma try_associativity_outcome n ntk :
  annotated ntk -> outcome ntk n (try_associativity n ntk).
Proof.
  intros A. rewrite try_associativity_refines.
  destruct (assoc_pattern ntk n) as [[[l rl] rr]|] eqn:P; [|constructor].
  destruct (assoc_action_spec _ _ _ _ _ A P) as (ntk' & inner & s & -> & RW & _).
  now apply (outcome_fired ntk n [EvCreateAnd l rl; EvCreateAnd inner rr]).
Qed.

Lemma try_distributivity_outcome n ntk :
  annotated ntk -> outcome ntk n (try_distributivity n ntk).
Proof.
  intros A. rewrite try_distributivity_refines.
  destruct (dist_pattern ntk n) as [[[d1 c] d2]|] eqn:P; [|constructor].
  destruct (dist_action_spec _ _ _ _ _ A P) as (ntk' & orAB & s & -> & RW & _).
  now apply (outcome_fired ntk n
               [EvCreateNot d1; EvCreateNot d2; EvCreateNand (negate d1) (negate d2);
                EvCreateNand c orAB]).
Qed.

Lemma try_3l_distributivity_outcome n ntk :
  annotated ntk -> outcome ntk n (try_3l_distributivity n ntk).
Proof.
  intros A. rewrite try_3l_distributivity_refines.
  destruct (dist3_pattern ntk n) as [[[[l rl] rrl] rrr]|] eqn:P; [|constructor].
  destruct (dist3_action_spec _ _ _ _ _ _ A P)
    as (ntk' & newL & innerR & newR & s & -> & RW & _).
  now apply (outcome_fired ntk n
               [EvCreateNot rl; EvCreateNand l (negate rl); EvCreateAnd l rrl;
                EvCreateNand innerR rrr; EvCreateNand newL newR]).
Qed.

(** The dispatcher returns what the first rule that fires returns. *)
Lemma try_algebraic_rules_first n ntk :
  try_algebraic_rules n ntk
  = if fst (fst (try_associativity n ntk)) then try_associativity n ntk
    else if fst (fst (try_distributivity n ntk)) then try_distributivity n ntk
    else try_3l_distributivity n ntk.
Proof.
  unfold try_algebraic_rules.
  destruct (try_associativity_attempt n ntk) as [|cs s k C X]; simpl; [|reflexivity].
  destruct (try_distributivity_attempt n ntk) as [|cs s k C X]; simpl; [|reflexivity].
  destruct (try_3l_distributivity_attempt n ntk) as [|cs s k C X]; reflexivity.
Qed.

Lemma try_algebraic_rules_attempt n ntk : attempt ntk n (try_algebraic_rules n ntk).
Proof.
  rewrite try_algebraic_rules_first.
  destruct (fst (fst (try_associativity n ntk))); [apply try_associativity_attempt|].
  destruct (fst (fst (try_distributivity n ntk))); [apply try_distributivity_attempt|].
  apply try_3l_distributivity_attempt.
Qed.

Lemma try_algebraic_rules_outcome n ntk :
  annotated ntk -> outcome ntk n (try_algebraic_rules n ntk).
Proof.
  intros A. rewrite try_algebraic_rules_first.
  destruct (fst (fst (try_associativity n ntk))); [now apply try_associativity_outcome|].
  destruct (fst (fst (try_distributivity n ntk))); [now apply try_distributivity_outcome|].
  now apply try_3l_distributivity_outcome.
Qed.

(** ** What the driver preserves *)

Lemma preserved_refl ntk : annotated ntk -> preserved ntk ntk.
Proof. intros A. repeat split; try apply A; auto. Qed.

Lemma preserved_trans a b c : preserved a b -> preserved b c -> preserved a c.
Proof.
  intros (_ & S1 & V1 & D1) (A2 & S2 & V2 & D2).
  split; [exact A2|]. split; [lia|]. split; [|lia].
  intros env. now rewrite V2, V1.
Qed.

Lemma rewritten_preserved ntk n s ntk' :
  annotated ntk -> rewritten ntk n s ntk' -> preserved ntk (refresh ntk').
Proof.
  intros A RW. pose proof A as [W _]. split; [|split; [|split]].
  - now apply (rewritten_annotated ntk n s).
  - apply (rw_size _ _ _ _ RW).
  - intros env. now apply (rewritten_output_values ntk n s).
  - now apply (rewritten_depth ntk n s).
Qed.

(** The visit of one gate. *)
Lemma visit_eq n cont ntk :
  visit n cont ntk
  = let '(fired, ntk1, e1) := try_algebraic_rules n ntk in
    if fired then (true, refresh ntk1, e1 ++ [EvUpdateLevels])
    else (cont, ntk1, e1).
Proof.
  unfold visit, bind, update_levels, ret.
  destruct (try_algebraic_rules n ntk) as [[fired ntk1] e1].
  destruct fired; simpl; [reflexivity|]. now rewrite app_nil_r.
Qed.

Lemma visit_visited n cont ntk : visited ntk n cont (visit n cont ntk).
Proof.
  rewrite visit_eq.
  destruct (try_algebraic_rules_attempt n ntk) as [|cs s k C X]; [constructor|].
  replace ((cs ++ [EvSubstitute n s]) ++ [EvUpdateLevels])
    with (cs ++ [EvSubstitute n s; EvUpdateLevels]) by now rewrite <- app_assoc.
  now constructor.
Qed.

Lemma visit_preserved n cont ntk :
  annotated ntk -> preserved ntk (snd (fst (visit n cont ntk))).
Proof.
  intros A. rewrite visit_eq.
  destruct (try_algebraic_rules_outcome n ntk A) as [|cs s ntk' C RW]; simpl.
  - now apply preserved_refl.
  - now apply (rewritten_preserved ntk n s).
Qed.

Lemma refreshed_app es fs :
  refreshed_after_substitution es = true ->
  refreshed_after_substitution fs = true ->
  refreshed_after_substitution (es ++ fs) = true.
Proof.
  intros He Hf. induction es as [|e es IH]; simpl; [exact Hf|].
  destruct e; simpl in He; try (now apply IH).
  destruct es as [|e' es']; [discriminate|].
  destruct e'; try discriminate. simpl. now apply IH.
Qed.

Lemma refreshed_constructions cs n s :
  forallb is_construction cs = true ->
  refreshed_after_substitution (cs ++ [EvSubstitute n s; EvUpdateLevels]) = true.
Proof.
  induction cs as [|c cs IH]; simpl; [reflexivity|].
  rewrite andb_true_iff. intros [Hc Hcs].
  destruct c; try discriminate; now apply IH.
Qed.

Lemma substitutions_app es fs :
  substitutions (es ++ fs) = substitutions es + substitutions fs.
Proof. unfold substitutions. now rewrite filter_app, length_app. Qed.

Lemma substitutions_constructions cs :
  forallb is_construction cs = true -> substitutions cs = 0.
Proof.
  unfold substitutions. induction cs as [|c cs IH]; simpl; [reflexivity|].
  rewrite andb_true_iff. intros [Hc Hcs]. destruct c; try discriminate; now apply IH.
Qed.

(** One pass over a list of nodes. *)
Lemma foreach_gate_preserved ns : forall cont ntk,
  annotated ntk -> preserved ntk (snd (fst (foreach_gate ns cont ntk))).
Proof.
  induction ns as [|n ns IH]; intros cont ntk A; simpl.
  - now apply preserved_refl.
  - destruct (is_gate ntk n && negb (is_dead ntk n)); [|now apply IH].
    unfold bind. pose proof (visit_preserved n cont ntk A) as P.
    destruct (visit n cont ntk) as [[c ntk1] e1]. simpl in P.
    pose proof (IH c ntk1 (proj1 P)) as Q.
    destruct (foreach_gate ns c ntk1) as [[c2 ntk2] e2]. simpl in *.
    now apply (preserved_trans _ ntk1).
Qed.

Lemma foreach_gate_log ns : forall cont ntk c ntk' es,
  foreach_gate ns cont ntk = (c, ntk', es) ->
  refreshed_after_substitution es = true /\
  ((c = cont /\ ntk' = ntk /\ es = []) \/ (c = true /\ 0 < substitutions es)).
Proof.
  induction ns as [|n ns IH]; intros cont ntk c ntk' es H; simpl in H.
  - injection H as <- <- <-. split; [reflexivity | now left].
  - destruct (is_gate ntk n && negb (is_dead ntk n)); [|now apply IH].
    unfold bind in H.
    destruct (visit_visited n cont ntk) as [|cs s k C X].
    + destruct (foreach_gate ns cont ntk) as [[c2 ntk2] e2] eqn:F.
      injection H as <- <- <-. simpl. now apply (IH cont ntk).
    + destruct (foreach_gate ns true (refresh (rewire n s k))) as [[c2 ntk2] e2] eqn:F.
      injection H as <- <- <-. destruct (IH _ _ _ _ _ F) as [R D]. split.
      * apply refreshed_app; [now apply refreshed_constructions | exact R].
      * right. split.
        -- destruct D as [(-> & _)|(-> & _)]; reflexivity.
        -- rewrite !substitutions_app. unfold substitutions at 2. simpl. lia.
Qed.

(** ** Scans and runs *)

Lemma scan_preserved ntk : annotated ntk -> preserved ntk (snd (fst (scan ntk))).
Proof. intros A. unfold scan. now apply foreach_gate_preserved. Qed.

Lemma scan_log ntk c ntk' es :
  scan ntk = (c, ntk', es) ->
  refreshed_after_substitution es = true /\
  ((c = false /\ ntk' = ntk /\ es = []) \/ (c = true /\ 0 < substitutions es)).
Proof. unfold scan. apply foreach_gate_log. Qed.

Lemma after_scans_step k ntk :
  fst (after_scans (S k) ntk) = fst (after_scans k (snd (fst (scan ntk)))).
Proof.
  simpl. destruct (scan ntk) as [[c ntk1] e1]. simpl.
  now destruct (after_scans k ntk1).
Qed.

Lemma after_scans_preserved k : forall ntk,
  annotated ntk -> preserved ntk (fst (after_scans k ntk)).
Proof.
  induction k as [|k IH]; intros ntk A.
  - now apply preserved_refl.
  - rewrite after_scans_step. pose proof (scan_preserved ntk A) as P.
    apply (preserved_trans _ _ _ P). apply IH, P.
Qed.

Lemma run_preserved fuel : forall ntk ntk' es,
  annotated ntk -> run fuel ntk = Some (ntk', es) -> preserved ntk ntk'.
Proof.
  induction fuel as [|f IH]; intros ntk ntk' es A H; simpl in H; [discriminate|].
  pose proof (scan_preserved ntk A) as P.
  destruct (scan ntk) as [[c ntk1] e1]. simpl in P. destruct c.
  - destruct (run f ntk1) as [[ntk2 e2]|] eqn:R; [|discriminate].
    injection H as <- <-. apply (preserved_trans _ _ _ P).
    apply (IH _ _ _ (proj1 P) R).
  - injection H as <- <-. exact P.
Qed.

Lemma run_log fuel : forall ntk ntk' es,
  run fuel ntk = Some (ntk', es) -> refreshed_after_substitution es = true.
Proof.
  induction fuel as [|f IH]; intros ntk ntk' es H; simpl in H; [discriminate|].
  destruct (scan ntk) as [[c ntk1] e1] eqn:Sc. destruct (scan_log _ _ _ _ Sc) as [R _].
  destruct c.
  - destruct (run f ntk1) as [[ntk2 e2]|] eqn:Rn; [|discriminate].
    injection H as <- <-. apply refreshed_app; [exact R | now apply (IH ntk1 ntk2)].
  - now injection H as <- <-.
Qed.

(** A run stops on a network that a scan leaves alone. *)
Lemma run_fixpoint fuel : forall ntk ntk' es,
  run fuel ntk = Some (ntk', es) -> scan ntk' = (false, ntk', []).
Proof.
  induction fuel as [|f IH]; intros ntk ntk' es H; simpl in H; [discriminate|].
  destruct (scan ntk) as [[c ntk1] e1] eqn:Sc. destruct c.
  - destruct (run f ntk1) as [[ntk2 e2]|] eqn:Rn; [|discriminate].
    injection H as <- <-. now apply (IH ntk1 ntk2 e2).
  - injection H as <- <-.
    destruct (scan_log _ _ _ _ Sc) as [_ [(_ & -> & ->)|(D & _)]]; [exact Sc | discriminate].
Qed.

Lemma run_after_scans fuel : forall ntk r,
  run fuel ntk = Some r <->
  exists k, k < fuel /\ r = after_scans (S k) ntk /\
            scan_fires (fst (after_scans k ntk)) = false /\
            forall j, j < k -> scan_fires (fst (after_scans j ntk)) = true.
Proof.
  induction fuel as [|f IH]; intros ntk r.
  - split; [discriminate | intros (k & L & _); lia].
  - simpl run. split.
    + intros H. destruct (scan ntk) as [[c ntk1] e1] eqn:Sc. destruct c.
      * destruct (run f ntk1) as [[ntk2 e2]|] eqn:Rn; [|discriminate].
        injection H as <-. apply IH in Rn. destruct Rn as (k & L & E & F & B).
        exists (S k). split; [lia|]. split; [|split].
        -- change (after_scans (S (S k)) ntk)
             with (let '(_, n1, x1) := scan ntk in
                   let '(n2, x2) := after_scans (S k) n1 in (n2, x1 ++ x2)).
           rewrite Sc, <- E. reflexivity.
        -- rewrite after_scans_step, Sc. exact F.
        -- intros [|j] Lj; [simpl; unfold scan_fires; now rewrite Sc|].
           rewrite after_scans_step, Sc. apply B. lia.
      * injection H as <-. exists 0. split; [lia|]. split; [|split].
        -- simpl. rewrite Sc. now rewrite app_nil_r.
        -- simpl. unfold scan_fires. now rewrite Sc.
        -- intros j Lj. lia.
    + intros (k & L & E & F & B).
      destruct (scan ntk) as [[c ntk1] e1] eqn:Sc. destruct k as [|k].
      * simpl in F. unfold scan_fires in F. rewrite Sc in F. simpl in F. subst c.
        rewrite E. simpl. rewrite Sc. now rewrite app_nil_r.
      * assert (Hc : c = true).
        { specialize (B 0 ltac:(lia)). simpl in B. unfold scan_fires in B.
          now rewrite Sc in B. }
        subst c.
        assert (R : run f ntk1 = Some (after_scans (S k) ntk1)).
        { apply IH. exists k. split; [lia|]. split; [reflexivity|]. split.
          - rewrite after_scans_step, Sc in F. exact F.
          - intros j Lj. specialize (B (S j) ltac:(lia)).
            rewrite after_scans_step, Sc in B. exact B. }
        rewrite R. rewrite E.
        change (after_scans (S (S k)) ntk)
          with (let '(_, n1, x1) := scan ntk in
                let '(n2, x2) := after_scans (S k) n1 in (n2, x1 ++ x2)).
        rewrite Sc. now destruct (after_scans (S k) ntk1).
Qed.

(** ** Termination: the potential decreases with every rewrite *)

Lemma list_sum_map_le (f g : node -> nat) l :
  (forall x, In x l -> f x <= g x) ->
  list_sum (map f l) <= list_sum (map g l).
Proof.
  induction l as [|x l IH]; intros H; simpl; [lia|].
  pose proof (H x (or_introl eq_refl)).
  assert (forall y, In y l -> f y <= g y) as H' by (intros y Hy; apply H; now right).
  specialize (IH H'). lia.
Qed.

Lemma list_sum_map_gap (f g : node -> nat) l n d :
  In n l -> (forall x, In x l -> f x <= g x) -> f n + d <= g n ->
  list_sum (map f l) + d <= list_sum (map g l).
Proof.
  induction l as [|x l IH]; intros I H D; [destruct I|]. simpl.
  assert (forall y, In y l -> f y <= g y) as H' by (intros y Hy; apply H; now right).
  destruct I as [->|I].
  - pose proof (list_sum_map_le f g l H'). lia.
  - pose proof (H x (or_introl eq_refl)). specialize (IH I H' D). lia.
Qed.

Lemma list_sum_map_bound (f : node -> nat) l c :
  (forall x, In x l -> f x <= c) -> list_sum (map f l) <= length l * c.
Proof.
  induction l as [|x l IH]; intros H; simpl; [lia|].
  pose proof (H x (or_introl eq_refl)).
  assert (forall y, In y l -> f y <= c) as H' by (intros y Hy; apply H; now right).
  specialize (IH H'). lia.
Qed.

Lemma potential_refresh ntk : potential (refresh ntk) = potential ntk.
Proof.
  unfold potential. change (size (refresh ntk)) with (size ntk). f_equal.
  apply map_ext. intros x. unfold weight, structural_level.
  change (size (refresh ntk)) with (size ntk).
  now rewrite (compute_level_nodes ntk (refresh ntk) eq_refl).
Qed.

Lemma potential_decrease ntk n s ntk' :
  rewritten ntk n s ntk' ->
  is_gate ntk n = true -> is_dead ntk n = false ->
  potential ntk' < potential ntk.
Proof.
  intros RW G D.
  assert (Ln : n < size ntk).
  { unfold is_gate in G. destruct (cell_of ntk n) eqn:E; try discriminate.
    exact (cell_of_gate_lt _ _ _ _ E). }
  pose proof (rw_size _ _ _ _ RW) as Z. pose proof (rw_growth _ _ _ _ RW) as Gr.
  pose proof (rw_new_level _ _ _ _ RW) as NL.
  remember (structural_level ntk n) as L eqn:EL.
  destruct L as [|L']; [lia|].
  assert (Dead : forall x, is_dead ntk' x = (x =? n) || is_dead ntk x).
  { intros x. unfold is_dead. now rewrite (rw_dead _ _ _ _ RW). }
  unfold potential.
  replace (size ntk') with (size ntk + (size ntk' - size ntk)) by lia.
  rewrite seq_app, map_app, list_sum_app, Nat.add_0_l.
  assert (A : list_sum (map (weight ntk') (seq 0 (size ntk))) + 5 ^ S L'
              <= list_sum (map (weight ntk) (seq 0 (size ntk)))).
  { apply (list_sum_map_gap _ _ _ n).
    - apply in_seq. lia.
    - intros x I. apply in_seq in I. unfold weight.
      rewrite (rw_gate _ _ _ _ RW) by lia. rewrite Dead.
      destruct (is_gate ntk x); [|simpl; lia].
      destruct (Nat.eqb_spec x n); [simpl; lia|].
      destruct (is_dead ntk x); simpl; [lia|].
      apply Nat.pow_le_mono_r; [lia|]. apply (rw_level _ _ _ _ RW). lia.
    - unfold weight at 1. rewrite Dead, Nat.eqb_refl, andb_false_r.
      unfold weight. rewrite G, D, <- EL. simpl. lia. }
  assert (B : list_sum (map (weight ntk') (seq (size ntk) (size ntk' - size ntk)))
              <= (size ntk' - size ntk) * 5 ^ L').
  { rewrite <- (length_seq (size ntk' - size ntk) (size ntk)) at 2.
    apply list_sum_map_bound. intros x I. apply in_seq in I. unfold weight.
    destruct (is_gate ntk' x && negb (is_dead ntk' x)); [|lia].
    apply Nat.pow_le_mono_r; [lia|].
    pose proof (rw_fresh _ _ _ _ RW x). lia. }
  assert (P : 5 ^ S L' = 5 * 5 ^ L') by apply Nat.pow_succ_r'.
  assert (Q : 0 < 5 ^ L') by (apply Nat.neq_0_lt_0, Nat.pow_nonzero; lia).
  assert (B' : (size ntk' - size ntk) * 5 ^ L' <= 4 * 5 ^ L')
    by (apply Nat.mul_le_mono_r; lia).
  rewrite P in A. clear P.
  set (p := 5 ^ L') in *. clearbody p.
  set (q := (size ntk' - size ntk) * p) in *. clearbody q.
  unfold node in *. lia.
Qed.

Lemma visit_potential n cont ntk c ntk' es :
  annotated ntk -> is_gate ntk n && negb (is_dead ntk n) = true ->
  visit n cont ntk = (c, ntk', es) ->
  (c = cont /\ ntk' = ntk) \/ (c = true /\ potential ntk' < potential ntk).
Proof.
  intros A G H. rewrite visit_eq in H.
  apply andb_true_iff in G. destruct G as [G D]. apply negb_true_iff in D.
  destruct (try_algebraic_rules_outcome n ntk A) as [|cs s k C RW].
  - injection H as <- <- <-. now left.
  - injection H as <- <- <-. right. split; [reflexivity|].
    rewrite potential_refresh. now apply (potential_decrease ntk n s).
Qed.

Lemma foreach_gate_potential ns : forall cont ntk c ntk' es,
  annotated ntk -> foreach_gate ns cont ntk = (c, ntk', es) ->
  (c = cont /\ ntk' = ntk) \/ (c = true /\ potential ntk' < potential ntk).
Proof.
  induction ns as [|n ns IH]; intros cont ntk c ntk' es A H; simpl in H.
  - injection H as <- <- <-. now left.
  - destruct (is_gate ntk n && negb (is_dead ntk n)) eqn:G; [|now apply (IH _ _ _ _ es)].
    unfold bind in H. pose proof (visit_preserved n cont ntk A) as P.
    destruct (visit n cont ntk) as [[c1 ntk1] e1] eqn:V. simpl in P.
    destruct (foreach_gate ns c1 ntk1) as [[c2 ntk2] e2] eqn:F.
    injection H as <- <- <-.
    destruct (visit_potential _ _ _ _ _ _ A G V) as [(-> & ->)|(-> & Lt)].
    + now apply (IH _ _ _ _ e2).
    + right. destruct (IH _ _ _ _ _ (proj1 P) F) as [(-> & ->)|(-> & Lt')];
        split; try reflexivity; lia.
Qed.

Lemma scan_potential ntk c ntk' es :
  annotated ntk -> scan ntk = (c, ntk', es) ->
  (c = false /\ ntk' = ntk) \/ (c = true /\ potential ntk' < potential ntk).
Proof. intros A H. now apply (foreach_gate_potential _ _ _ _ _ es A H). Qed.

(** The loop of [run] ends: the potential bounds the number of scans that
    fire. *)
Lemma run_terminates_within m : forall ntk,
  annotated ntk -> potential ntk <= m -> exists r, run (S m) ntk = Some r.
Proof.
  induction m as [|m IH]; intros ntk A B.
  - simpl. destruct (scan ntk) as [[c ntk1] e1] eqn:Sc.
    destruct (scan_potential _ _ _ _ A Sc) as [(-> & _)|(_ & Lt)]; [eauto | lia].
  - change (run (S (S m)) ntk)
      with (let '(cont, ntk1, e1) := scan ntk in
            if cont
            then match run (S m) ntk1 with
                 | Some (ntk2, e2) => Some (ntk2, e1 ++ e2)
                 | None => None
                 end
            else Some (ntk1, e1)).
    pose proof (scan_preserved ntk A) as P.
    destruct (scan ntk) as [[c ntk1] e1] eqn:Sc. simpl in P.
    destruct (scan_potential _ _ _ _ A Sc) as [(-> & _)|(-> & Lt)]; [eauto|].
    destruct (IH ntk1 (proj1 P) ltac:(lia)) as [[ntk2 e2] R]. rewrite R. eauto.
Qed.

Lemma run_terminates ntk :
  annotated ntk -> exists ntk' es, run (S (potential ntk)) ntk = Some (ntk', es).
Proof.
  intros A. destruct (run_terminates_within (potential ntk) ntk A (le_n _)) as [[g e] R].
  eauto.
Qed.

Lemma entry_terminates ntk :
  well_formed ntk ->
  exists ntk' es,
    aig_algebraic_rewriting (S (potential ntk)) ntk = Some (ntk', es).
Proof.
  intros W. destruct (run_terminates _ (annotated_refresh _ W)) as (g & e & R).
  rewrite potential_refresh in R.
  unfold aig_algebraic_rewriting, update_levels. rewrite R. eauto.
Qed.

(** ** The entry point and the rules by name *)

Lemma entry_preserved fuel ntk ntk' es :
  well_formed ntk -> aig_algebraic_rewriting fuel ntk = Some (ntk', es) ->
  preserved (refresh ntk) ntk'.
Proof.
  intros W H. unfold aig_algebraic_rewriting, update_levels in H.
  destruct (run fuel (refresh ntk)) as [[g e]|] eqn:R; [|discriminate].
  injection H as <- <-. apply (run_preserved _ _ _ _ (annotated_refresh _ W) R).
Qed.

Lemma apply_rule_outcome r n ntk : annotated ntk -> outcome ntk n (apply_rule r n ntk).
Proof.
  intros A. destruct r; simpl;
    [now apply try_associativity_outcome | now apply try_distributivity_outcome
     | now apply try_3l_distributivity_outcome].
Qed.

Lemma apply_rule_attempt r n ntk : attempt ntk n (apply_rule r n ntk).
Proof.
  destruct r; simpl;
    [apply try_associativity_attempt | apply try_distributivity_attempt
     | apply try_3l_distributivity_attempt].
Qed.

Lemma fired_inv ntk n ntk' es :
  outcome ntk n (true, ntk', es) ->
  exists cs s, es = cs ++ [EvSubstitute n s] /\ forallb is_construction cs = true /\
               rewritten ntk n s ntk'.
Proof. intros O. inversion O; subst. eauto. Qed.

(** ** Properties of the engine *)

(** C1. A run of the engine keeps the Boolean function of the circuit: the
    run returns (the potential bounds the number of scans), and for every
    assignment of the primary inputs the outputs have the values they had
    before, when the run returns and also after any number of scans; and when
    a rule fires on a node, the signal that replaces the node has, for every
    assignment, the value the node had. *)
Theorem functional_equivalence (ntk : network) :
  acyclic ntk ->
  (exists ntk' es,
     aig_algebraic_rewriting (S (potential ntk)) ntk = Some (ntk', es)) /\
  (forall fuel ntk' es,
     aig_algebraic_rewriting fuel ntk = Some (ntk', es) ->
     forall env, output_values ntk' env = output_values ntk env) /\
  (forall k env,
     output_values (fst (after_scans k (refresh ntk))) env = output_values ntk env) /\
  (forall r n ntk' es,
     apply_rule r n (refresh ntk) = (true, ntk', es) ->
     exists cs s, es = cs ++ [EvSubstitute n s] /\
       forall env, signal_value ntk' env s = node_value ntk env n).
Proof.
  intros Ac. pose proof (acyclic_well_formed _ Ac) as W.
  pose proof (annotated_refresh _ W) as A.
  split; [now apply entry_terminates|]. split; [|split].
  - intros fuel ntk' es H env.
    destruct (entry_preserved _ _ _ _ W H) as (_ & _ & V & _).
    now rewrite V, output_values_refresh.
  - intros k env.
    destruct (after_scans_preserved k _ A) as (_ & _ & V & _).
    now rewrite V, output_values_refresh.
  - intros r n ntk' es H. pose proof (apply_rule_outcome r n _ A) as O.
    rewrite H in O. destruct (fired_inv _ _ _ _ O) as (cs & s & -> & _ & RW).
    exists cs, s. split; [reflexivity|]. intros env.
    now rewrite (rw_new_value _ _ _ _ RW), node_value_refresh.
Qed.

Lemma functional_equivalence_witness :
  acyclic circuit_assoc /\
  output_values rewritten_assoc all_true = output_values circuit_assoc all_true.
Proof.
  assert (W : acyclic circuit_assoc)
    by (apply well_formed_acyclic, topo_sorted_well_formed; reflexivity).
  split; [exact W|].
  apply (proj1 (proj2 (functional_equivalence circuit_assoc W))
           2 rewritten_assoc log_assoc).
  vm_compute. reflexivity.
Defined.

(** C2. The run returns, and the depth of the network, the largest level of
    an output, after a run is at most the depth before it; this also holds
    after any number of scans. *)
Theorem depth_non_increase (ntk : network) :
  acyclic ntk ->
  (exists ntk' es,
     aig_algebraic_rewriting (S (potential ntk)) ntk = Some (ntk', es)) /\
  (forall fuel ntk' es,
     aig_algebraic_rewriting fuel ntk = Some (ntk', es) ->
     depth ntk' <= depth (refresh ntk)) /\
  (forall k, depth (fst (after_scans k (refresh ntk))) <= depth (refresh ntk)).
Proof.
  intros Ac. pose proof (acyclic_well_formed _ Ac) as W.
  split; [now apply entry_terminates|]. split.
  - intros fuel ntk' es H. apply (entry_preserved _ _ _ _ W H).
  - intros k. apply (after_scans_preserved k _ (annotated_refresh _ W)).
Qed.

Lemma depth_non_increase_witness :
  acyclic circuit_assoc /\
  depth rewritten_assoc <= depth (refresh circuit_assoc) /\
  depth rewritten_assoc = 3 /\ depth (refresh circuit_assoc) = 4.
Proof.
  assert (W : acyclic circuit_assoc)
    by (apply well_formed_acyclic, topo_sorted_well_formed; reflexivity).
  split; [exact W|]. split; [|split; reflexivity].
  apply (proj1 (proj2 (depth_non_increase circuit_assoc W))
           2 rewritten_assoc log_assoc).
  vm_compute. reflexivity.
Defined.

(** C3. The associativity rule fires on a node exactly when the node matches
    the pattern of section 4.2: a two-input AND whose operands, oriented so
    that [r] is the deeper one (swap when Level(l) > Level(r)+1), satisfy
    Level(l)+1 < Level(r), [r] is not complemented and is a two-input AND whose
    operands [rl], [rr], ordered by level, differ in level.  When it fires it
    builds AND(AND(l, rl), rr) and substitutes the node with it; otherwise it
    reports no match and leaves the network alone.  The pattern matches with
    [l], [rl], [rr] exactly when the node has the operands [l] and some [r],
    in either order, with Level(l)+1 < Level(r), [r] is not complemented, and
    the node of [r] has the operands [rl] and [rr], in either order, with
    Level(rl) < Level(rr). *)
Theorem associativity_rule (n : node) (ntk : network) :
  try_associativity n ntk
  = match assoc_pattern ntk n with
    | Some (l, rl, rr) =>
        (inner <- create_and l rl ;;
         new <- create_and inner rr ;;
         substitute_node n new ;;;
         ret true) ntk
    | None => (false, ntk, [])
    end
  /\ (fst (fst (try_associativity n ntk)) = true
      <-> exists l rl rr, assoc_pattern ntk n = Some (l, rl, rr))
  /\ (forall l rl rr, assoc_pattern ntk n = Some (l, rl, rr) <->
      exists r,
        (cell_of ntk n = Gate l r \/ cell_of ntk n = Gate r l) /\
        (cell_of ntk (index r) = Gate rl rr \/ cell_of ntk (index r) = Gate rr rl) /\
        slevel ntk l + 1 < slevel ntk r /\
        complement r = false /\
        slevel ntk rl < slevel ntk rr).
Proof.
  split; [apply try_associativity_refines|]. split.
  - rewrite try_associativity_refines.
    destruct (assoc_pattern ntk n) as [[[l rl] rr]|].
    + split; [eauto|]. intros _. apply assoc_action_fires.
    + split; [discriminate|]. intros (l & rl & rr & H). discriminate.
  - intros l rl rr. split; [apply assoc_pattern_inv|].
    intros (r & Gn & Gr & H1 & Cr & H2).
    now apply (assoc_pattern_complete ntk n l rl rr r).
Qed.

Lemma associativity_rule_witness :
  assoc_pattern (refresh circuit_assoc) 11 = Some (sig 1, sig 7, sig 9) /\
  fst (fst (try_associativity 11 (refresh circuit_assoc))) = true /\
  assoc_pattern (refresh circuit_assoc) 10 = None /\
  try_associativity 10 (refresh circuit_assoc) = (false, refresh circuit_assoc, []).
Proof.
  split; [reflexivity|]. split; [|split; [reflexivity|]].
  - apply (proj1 (proj2 (associativity_rule 11 (refresh circuit_assoc)))).
    exists (sig 1), (sig 7), (sig 9). reflexivity.
  - rewrite (proj1 (associativity_rule 10 (refresh circuit_assoc))). reflexivity.
Defined.

(** C4 as the specification states it fails: the operand pairs of a node on
    which distributivity fires need not share exactly one underlying node.
    In [circuit_two_shared], a well-formed network with correct levels, node 7
    is ~(c.d) . ~(c.~d): the search of lines 174-194 ends on A==C, the common
    factor c (level 1) is deeper than d (level 0) on both sides and occurs
    plain in both, so the rule fires, and the two pairs share both c and d. *)
Lemma distributivity_fires_on_two_common_nodes :
  ~ (forall (ntk : network) (n : node) (L R A B C D : signal),
       annotated ntk ->
       fst (fst (try_distributivity n ntk)) = true ->
       cell_of ntk n = Gate L R ->
       cell_of ntk (index L) = Gate A B ->
       cell_of ntk (index R) = Gate C D ->
       exactly_one_common A B C D).
Proof.
  intros H.
  assert (A : annotated (refresh circuit_two_shared))
    by (apply annotated_refresh, topo_sorted_well_formed; reflexivity).
  specialize (H (refresh circuit_two_shared) 7 (nsig 5) (nsig 6)
                (sig 4) (sig 3) (sig 4) (nsig 3) A
                eq_refl eq_refl eq_refl eq_refl).
  unfold exactly_one_common in H. vm_compute in H. discriminate H.
Qed.

(** C4, amended.  The distributivity rule fires on a node only when both
    operand signals are complemented, both operand nodes are two-input ANDs,
    the two fanins share an underlying node (they may share both), which
    occurs in both with the same polarity (the signal [c]), and the level of
    this common factor is above the level of each of the other two operands
    [d1], [d2].  It then builds NOT(d1), NOT(d2), their NAND, which has the
    value of d1 + d2, the NAND of [c] with it, and substitutes the node with
    the latter. *)
Theorem distributivity_rule (n : node) (ntk : network) :
  try_distributivity n ntk
  = match dist_pattern ntk n with
    | Some (d1, c, d2) =>
        (notA <- create_not d1 ;;
         notB <- create_not d2 ;;
         orAB <- create_nand notA notB ;;
         new <- create_nand c orAB ;;
         substitute_node n new ;;;
         ret true) ntk
    | None => (false, ntk, [])
    end
  /\ (fst (fst (try_distributivity n ntk)) = true
      <-> exists d1 c d2, dist_pattern ntk n = Some (d1, c, d2))
  /\ (forall ntk' es, try_distributivity n ntk = (true, ntk', es) ->
      exists L R d1 c d2,
        dist_pattern ntk n = Some (d1, c, d2) /\
        cell_of ntk n = Gate L R /\ complement L = true /\ complement R = true /\
        (cell_of ntk (index L) = Gate d1 c \/ cell_of ntk (index L) = Gate c d1) /\
        (cell_of ntk (index R) = Gate c d2 \/ cell_of ntk (index R) = Gate d2 c) /\
        slevel ntk d1 < slevel ntk c /\ slevel ntk d2 < slevel ntk c)
  /\ (forall d1 d2 orAB ntk1 es,
      well_formed ntk -> index d1 < size ntk -> index d2 < size ntk ->
      (notA <- create_not d1 ;; notB <- create_not d2 ;; create_nand notA notB) ntk
      = (orAB, ntk1, es) ->
      forall env, signal_value ntk1 env orAB
                  = signal_value ntk env d1 || signal_value ntk env d2).
Proof.
  split; [apply try_distributivity_refines|]. split; [|split].
  - rewrite try_distributivity_refines.
    destruct (dist_pattern ntk n) as [[[d1 c] d2]|].
    + split; [eauto|]. intros _. apply dist_action_fires.
    + split; [discriminate|]. intros (d1 & c & d2 & H). discriminate.
  - intros ntk' es H. rewrite try_distributivity_refines in H.
    destruct (dist_pattern ntk n) as [[[d1 c] d2]|] eqn:P; [|discriminate].
    destruct (dist_pattern_inv _ _ _ _ _ P) as (L & R & Q).
    exists L, R, d1, c, d2. split; [reflexivity | exact Q].
  - intros d1 d2 orAB ntk1 es. apply nand_of_nots_value.
Qed.

Lemma distributivity_rule_witness :
  try_distributivity 8 (refresh circuit_dist) = (true, rewritten_dist, log_dist) /\
  dist_pattern (refresh circuit_dist) 8 = Some (sig 1, sig 5, sig 2) /\
  exists L R d1 c d2,
    dist_pattern (refresh circuit_dist) 8 = Some (d1, c, d2) /\
    cell_of (refresh circuit_dist) 8 = Gate L R /\
    complement L = true /\ complement R = true /\
    (cell_of (refresh circuit_dist) (index L) = Gate d1 c \/
     cell_of (refresh circuit_dist) (index L) = Gate c d1) /\
    (cell_of (refresh circuit_dist) (index R) = Gate c d2 \/
     cell_of (refresh circuit_dist) (index R) = Gate d2 c) /\
    slevel (refresh circuit_dist) d1 < slevel (refresh circuit_dist) c /\
    slevel (refresh circuit_dist) d2 < slevel (refresh circuit_dist) c.
Proof.
  split; [reflexivity|]. split; [reflexivity|].
  apply (proj1 (proj2 (proj2 (distributivity_rule 8 (refresh circuit_dist))))
           rewritten_dist log_dist).
  reflexivity.
Defined.

(** C5 as the specification states it fails: after the swaps the second
    element of the right pair need not be the shared node, nor even a node of
    the left pair.  With the pairs (x1, x2) and (x2, x3) the search ends on
    B==C, no swap takes place, and the second element of the right pair is
    x3. *)
Lemma second_of_each_pair_not_shared :
  ~ (forall l r l' r' : fanin_pair,
       normalize_common l r = Some (l', r') ->
       node1 r' = node0 l' \/ node1 r' = node1 l').
Proof.
  intros H.
  destruct (H (sig 1, sig 2, 1, 2) (sig 2, sig 3, 2, 3)
              (sig 1, sig 2, 1, 2) (sig 2, sig 3, 2, 3) eq_refl) as [E|E];
    discriminate E.
Qed.

(** C5, amended.  The shared node of the two fanin pairs (A,B) and (C,D) is
    searched in the order A==D, A==C, B==D, and B==C is required when none of
    them holds; after the swaps the shared node is the second element of the
    left pair and the first element of the right pair. *)
Theorem common_factor_position (l r : fanin_pair) :
  (node0 l = node1 r -> normalize_common l r = Some (swap_pair l, swap_pair r)) /\
  (node0 l <> node1 r -> node0 l = node0 r ->
   normalize_common l r = Some (swap_pair l, r)) /\
  (node0 l <> node1 r -> node0 l <> node0 r -> node1 l = node1 r ->
   normalize_common l r = Some (l, swap_pair r)) /\
  (node0 l <> node1 r -> node0 l <> node0 r -> node1 l <> node1 r ->
   node1 l = node0 r -> normalize_common l r = Some (l, r)) /\
  (node0 l <> node1 r -> node0 l <> node0 r -> node1 l <> node1 r ->
   node1 l <> node0 r -> normalize_common l r = None) /\
  (forall l' r', normalize_common l r = Some (l', r') -> node1 l' = node0 r').
Proof.
  destruct l as [[[sll slr] nll] nlr], r as [[[srl srr] nrl] nrr].
  unfold normalize_common, node0, node1, swap_pair.
  destruct (Nat.eqb_spec nll nrr); [|destruct (Nat.eqb_spec nll nrl);
    [|destruct (Nat.eqb_spec nlr nrr); [|destruct (Nat.eqb_spec nlr nrl)]]];
    simpl; repeat split; try congruence;
    intros l' r' H; injection H as <- <-; congruence.
Qed.

Lemma common_factor_position_witness :
  node1 (sig 1, sig 2, 1, 2) = node0 (sig 2, sig 3, 2, 3) /\
  normalize_common (sig 1, sig 2, 1, 2) (sig 2, sig 3, 2, 3)
  = Some ((sig 1, sig 2, 1, 2), (sig 2, sig 3, 2, 3)) /\
  normalize_common (sig 2, sig 1, 2, 1) (sig 3, sig 2, 3, 2)
  = Some ((sig 1, sig 2, 1, 2), (sig 2, sig 3, 2, 3)).
Proof.
  split; [reflexivity|]. split.
  - apply (proj1 (proj2 (proj2 (proj2
             (common_factor_position (sig 1, sig 2, 1, 2) (sig 2, sig 3, 2, 3))))));
      simpl; congruence.
  - apply (proj1 (common_factor_position (sig 2, sig 1, 2, 1) (sig 3, sig 2, 3, 2))).
    reflexivity.
Defined.

(** C6. The three-layer distributivity rule fires on a node only when the
    node matches the pattern of section 4.4: its operands, oriented so that
    [r] is the deeper one (swap when Level(l) > Level(r)+2), satisfy
    Level(l)+2 < Level(r); [r] is complemented; the operands [rl], [rr] of the
    node of [r], oriented so that [rr] is the deeper one, satisfy
    Level(rl)+1 < Level(rr); [rr] is complemented; and the operands [rrl],
    [rrr] of the node of [rr], ordered by level, differ in level.  It then
    substitutes the node with NAND(NAND(l, NOT(rl)), NAND(AND(l, rrl), rrr)),
    using [l] twice. *)
Theorem three_layer_distributivity_rule (n : node) (ntk : network) :
  try_3l_distributivity n ntk
  = match dist3_pattern ntk n with
    | Some (l, rl, rrl, rrr) =>
        (notRl <- create_not rl ;;
         newL <- create_nand l notRl ;;
         innerR <- create_and l rrl ;;
         newR <- create_nand innerR rrr ;;
         new <- create_nand newL newR ;;
         substitute_node n new ;;;
         ret true) ntk
    | None => (false, ntk, [])
    end
  /\ (fst (fst (try_3l_distributivity n ntk)) = true
      <-> exists l rl rrl rrr, dist3_pattern ntk n = Some (l, rl, rrl, rrr))
  /\ (forall ntk' es, try_3l_distributivity n ntk = (true, ntk', es) ->
      exists l rl rrl rrr r rr,
        dist3_pattern ntk n = Some (l, rl, rrl, rrr) /\
        (cell_of ntk n = Gate l r \/ cell_of ntk n = Gate r l) /\
        (cell_of ntk (index r) = Gate rl rr \/ cell_of ntk (index r) = Gate rr rl) /\
        (cell_of ntk (index rr) = Gate rrl rrr \/
         cell_of ntk (index rr) = Gate rrr rrl) /\
        slevel ntk l + 2 < slevel ntk r /\ complement r = true /\
        slevel ntk rl + 1 < slevel ntk rr /\ complement rr = true /\
        slevel ntk rrl < slevel ntk rrr)
  /\ (forall l rl rrl rrr, dist3_pattern ntk n = Some (l, rl, rrl, rrr) <->
      exists r rr,
        (cell_of ntk n = Gate l r \/ cell_of ntk n = Gate r l) /\
        (cell_of ntk (index r) = Gate rl rr \/ cell_of ntk (index r) = Gate rr rl) /\
        (cell_of ntk (index rr) = Gate rrl rrr \/
         cell_of ntk (index rr) = Gate rrr rrl) /\
        slevel ntk l + 2 < slevel ntk r /\ complement r = true /\
        slevel ntk rl + 1 < slevel ntk rr /\ complement rr = true /\
        slevel ntk rrl < slevel ntk rrr).
Proof.
  split; [apply try_3l_distributivity_refines|]. split; [|split].
  3:{ intros l rl rrl rrr. split; [apply dist3_pattern_inv|].
      intros (r & rr & Gn & Gr & Grr & H1 & Cr & H2 & Crr & H3).
      now apply (dist3_pattern_complete ntk n l rl rrl rrr r rr). }
  - rewrite try_3l_distributivity_refines.
    destruct (dist3_pattern ntk n) as [[[[l rl] rrl] rrr]|].
    + split; [eauto|]. intros _. apply dist3_action_fires.
    + split; [discriminate|]. intros (l & rl & rrl & rrr & H). discriminate.
  - intros ntk' es H. rewrite try_3l_distributivity_refines in H.
    destruct (dist3_pattern ntk n) as [[[[l rl] rrl] rrr]|] eqn:P; [|discriminate].
    destruct (dist3_pattern_inv _ _ _ _ _ _ P) as (r & rr & Q).
    exists l, rl, rrl, rrr, r, rr. split; [reflexivity | exact Q].
Qed.

Lemma three_layer_distributivity_rule_witness :
  try_3l_distributivity 9 (refresh circuit_dist3) = (true, rewritten_dist3, log_dist3) /\
  dist3_pattern (refresh circuit_dist3) 9 = Some (sig 5, sig 4, sig 3, sig 6) /\
  exists l rl rrl rrr r rr,
    dist3_pattern (refresh circuit_dist3) 9 = Some (l, rl, rrl, rrr) /\
    (cell_of (refresh circuit_dist3) 9 = Gate l r \/
     cell_of (refresh circuit_dist3) 9 = Gate r l) /\
    (cell_of (refresh circuit_dist3) (index r) = Gate rl rr \/
     cell_of (refresh circuit_dist3) (index r) = Gate rr rl) /\
    (cell_of (refresh circuit_dist3) (index rr) = Gate rrl rrr \/
     cell_of (refresh circuit_dist3) (index rr) = Gate rrr rrl) /\
    slevel (refresh circuit_dist3) l + 2 < slevel (refresh circuit_dist3) r /\
    complement r = true /\
    slevel (refresh circuit_dist3) rl + 1 < slevel (refresh circuit_dist3) rr /\
    complement rr = true /\
    slevel (refresh circuit_dist3) rrl < slevel (refresh circuit_dist3) rrr.
Proof.
  split; [reflexivity|]. split; [reflexivity|].
  apply (proj1 (proj2 (proj2
           (three_layer_distributivity_rule 9 (refresh circuit_dist3))))
           rewritten_dist3 log_dist3).
  reflexivity.
Defined.

Lemma scan_flag ntk : scan_fires ntk = true <-> 0 < substitutions (snd (scan ntk)).
Proof.
  unfold scan_fires. destruct (scan ntk) as [[c ntk'] es] eqn:Sc.
  destruct (scan_log _ _ _ _ Sc) as [_ [(-> & _ & ->)|(-> & D)]]; simpl.
  - unfold substitutions. simpl. split; [discriminate | lia].
  - tauto.
Qed.

Lemma attempt_substitutions ntk n r : attempt ntk n r -> substitutions (snd r) <= 1.
Proof.
  intros [|cs s k C X]; simpl; [unfold substitutions; simpl; lia|].
  rewrite substitutions_app, (substitutions_constructions _ C).
  unfold substitutions. simpl. lia.
Qed.

(** C7. For a visited node the dispatcher returns what the first rule that
    fires, in the order associativity, distributivity, three-layer
    distributivity, returns (network and log: no later rule has been tried),
    with at most one substitution; when a rule fired the levels are recomputed
    within the visit, so that in the log of a run every substitution is at
    once followed by the recomputation; the flag of a scan is set exactly when
    a substitution took place in it; and a run returns exactly after the first
    scan whose flag is not set. *)
Theorem driver_order (ntk : network) :
  (forall n,
     try_algebraic_rules n ntk
     = if fst (fst (try_associativity n ntk)) then try_associativity n ntk
       else if fst (fst (try_distributivity n ntk)) then try_distributivity n ntk
       else try_3l_distributivity n ntk) /\
  (forall n, substitutions (snd (try_algebraic_rules n ntk)) <= 1) /\
  (forall n cont,
     visit n cont ntk
     = let '(fired, ntk1, e1) := try_algebraic_rules n ntk in
       if fired then (true, refresh ntk1, e1 ++ [EvUpdateLevels])
       else (cont, ntk1, e1)) /\
  (forall fuel ntk' es,
     run fuel ntk = Some (ntk', es) -> refreshed_after_substitution es = true) /\
  (scan_fires ntk = true <-> 0 < substitutions (snd (scan ntk))) /\
  (forall fuel r,
     run fuel ntk = Some r <->
     exists k, k < fuel /\ r = after_scans (S k) ntk /\
               scan_fires (fst (after_scans k ntk)) = false /\
               forall j, j < k -> scan_fires (fst (after_scans j ntk)) = true).
Proof.
  split; [intros n; apply try_algebraic_rules_first|].
  split; [intros n; apply (attempt_substitutions ntk n), try_algebraic_rules_attempt|].
  split; [intros n cont; apply visit_eq|].
  split; [intros fuel ntk' es; apply run_log|].
  split; [apply scan_flag|].
  intros fuel r. apply run_after_scans.
Qed.

Lemma driver_order_witness :
  run 2 (refresh circuit_assoc) = Some (after_scans 2 (refresh circuit_assoc)) /\
  scan_fires (refresh circuit_assoc) = true /\
  scan_fires (fst (after_scans 1 (refresh circuit_assoc))) = false /\
  refreshed_after_substitution (snd (after_scans 2 (refresh circuit_assoc))) = true.
Proof.
  split; [|split; [reflexivity | split; reflexivity]].
  apply (proj2 (proj2 (proj2 (proj2 (proj2 (driver_order (refresh circuit_assoc))))))).
  exists 1. split; [lia|]. split; [reflexivity|]. split; [reflexivity|].
  intros j Lj. assert (j = 0) as -> by lia. reflexivity.
Defined.

(** C8. A rule attempt is atomic.  When a rule reports no match the network
    is the one it was given and no call to a constructor or to the
    substitution was made.  When it fires, its calls are constructions, which
    only extend the network, followed by one substitution as the last call:
    the replacement is complete before the node is substituted. *)
Theorem rule_atomicity (r : rule) (n : node) (ntk : network) :
  let '(fired, ntk', es) := apply_rule r n ntk in
  if fired
  then exists cs s ntkk,
         forallb is_construction cs = true /\ extends ntk ntkk /\
         ntk' = rewire n s ntkk /\ es = cs ++ [EvSubstitute n s]
  else ntk' = ntk /\ es = [].
Proof.
  destruct (apply_rule_attempt r n ntk) as [|cs s k C X]; [tauto|].
  exists cs, s, k. tauto.
Qed.

Lemma rule_atomicity_witness :
  apply_rule Associativity 10 (refresh circuit_assoc) = (false, refresh circuit_assoc, []) /\
  exists cs s ntkk,
    forallb is_construction cs = true /\ extends (refresh circuit_dist) ntkk /\
    rewritten_dist = rewire 8 s ntkk /\ log_dist = cs ++ [EvSubstitute 8 s].
Proof.
  split; [reflexivity|].
  exact (rule_atomicity Distributivity 8 (refresh circuit_dist)).
Defined.

(** C9. The engine is idempotent: on the network a run returned, a second
    run returns after one scan, with the same network and with no call made
    at all, so with no substitution; through the entry point the only call is
    the computation of the levels by the depth view. *)
Theorem idempotence (fuel : nat) (ntk ntk' : network) (es : list event) :
  run fuel ntk = Some (ntk', es) ->
  (forall f, run (S f) ntk' = Some (ntk', [])) /\
  (annotated ntk ->
   forall f, aig_algebraic_rewriting (S f) ntk' = Some (ntk', [EvUpdateLevels])).
Proof.
  intros H. pose proof (run_fixpoint _ _ _ _ H) as F.
  assert (R : forall f, run (S f) ntk' = Some (ntk', []))
    by (intros f; simpl; now rewrite F).
  split; [exact R|]. intros A f.
  destruct (run_preserved _ _ _ _ A H) as (A' & _).
  unfold aig_algebraic_rewriting, update_levels.
  rewrite (refresh_annotated _ A'), R. reflexivity.
Qed.

Lemma idempotence_witness :
  run 2 (refresh circuit_assoc) = Some (rewritten_assoc, tl log_assoc) /\
  run 1 rewritten_assoc = Some (rewritten_assoc, []) /\
  aig_algebraic_rewriting 1 rewritten_assoc = Some (rewritten_assoc, [EvUpdateLevels]) /\
  substitutions [EvUpdateLevels] = 0.
Proof.
  assert (H : run 2 (refresh circuit_assoc) = Some (rewritten_assoc, tl log_assoc))
    by (vm_compute; reflexivity).
  split; [exact H|].
  destruct (idempotence 2 (refresh circuit_assoc) rewritten_assoc (tl log_assoc) H)
    as [R E].
  split; [apply R|]. split; [|reflexivity].
  apply E. apply annotated_refresh, topo_sorted_well_formed. reflexivity.
Defined.

(** C10. On a network whose level annotation is the structural one, when a
    rule fires on a node the node of the replacement signal has, in the
    updated network, a level strictly below the level the node had:
    associativity goes from Level(rr)+2 to at most Level(rr)+1, distributivity
    from Level(common)+2 to Level(common)+1, three-layer distributivity from
    Level(rrr)+3 to Level(rrr)+2. *)
Theorem local_depth_decrease (ntk : network) (n : node) :
  annotated ntk ->
  (forall r ntk' es,
     apply_rule r n ntk = (true, ntk', es) ->
     exists cs s, es = cs ++ [EvSubstitute n s] /\
                  level (refresh ntk') (index s) < level ntk n) /\
  (forall l rl rr, assoc_pattern ntk n = Some (l, rl, rr) ->
     exists ntk' cs s,
       try_associativity n ntk = (true, ntk', cs ++ [EvSubstitute n s]) /\
       level ntk n = slevel ntk rr + 2 /\
       level (refresh ntk') (index s) <= slevel ntk rr + 1) /\
  (forall d1 c d2, dist_pattern ntk n = Some (d1, c, d2) ->
     exists ntk' cs s,
       try_distributivity n ntk = (true, ntk', cs ++ [EvSubstitute n s]) /\
       level ntk n = slevel ntk c + 2 /\
       level (refresh ntk') (index s) = slevel ntk c + 1) /\
  (forall l rl rrl rrr, dist3_pattern ntk n = Some (l, rl, rrl, rrr) ->
     exists ntk' cs s,
       try_3l_distributivity n ntk = (true, ntk', cs ++ [EvSubstitute n s]) /\
       level ntk n = slevel ntk rrr + 3 /\
       level (refresh ntk') (index s) = slevel ntk rrr + 2).
Proof.
  intros A. split; [|split; [|split]].
  - intros r ntk' es H. pose proof (apply_rule_outcome r n _ A) as O.
    rewrite H in O. destruct (fired_inv _ _ _ _ O) as (cs & s & -> & _ & RW).
    exists cs, s. split; [reflexivity|].
    rewrite level_refresh, (annotated_level _ _ A). apply (rw_new_level _ _ _ _ RW).
  - intros l rl rr P.
    destruct (assoc_action_spec _ _ _ _ _ A P) as (ntk' & inner & s & E & _ & L1 & L2).
    exists ntk', [EvCreateAnd l rl; EvCreateAnd inner rr], s.
    rewrite try_associativity_refines, P. split; [exact E|].
    unfold slevel. rewrite level_refresh, !(annotated_level _ _ A). lia.
  - intros d1 c d2 P.
    destruct (dist_action_spec _ _ _ _ _ A P) as (ntk' & orAB & s & E & _ & L1 & L2).
    exists ntk', [EvCreateNot d1; EvCreateNot d2; EvCreateNand (negate d1) (negate d2);
                  EvCreateNand c orAB], s.
    rewrite try_distributivity_refines, P. split; [exact E|].
    unfold slevel. rewrite level_refresh, !(annotated_level _ _ A). lia.
  - intros l rl rrl rrr P.
    destruct (dist3_action_spec _ _ _ _ _ _ A P)
      as (ntk' & newL & innerR & newR & s & E & _ & L1 & L2).
    exists ntk', [EvCreateNot rl; EvCreateNand l (negate rl); EvCreateAnd l rrl;
                  EvCreateNand innerR rrr; EvCreateNand newL newR], s.
    rewrite try_3l_distributivity_refines, P. split; [exact E|].
    unfold slevel. rewrite level_refresh, !(annotated_level _ _ A). lia.
Qed.

Lemma local_depth_decrease_witness :
  annotated (refresh circuit_dist) /\
  exists cs s, log_dist = cs ++ [EvSubstitute 8 s] /\
               level (refresh rewritten_dist) (index s) < level (refresh circuit_dist) 8.
Proof.
  assert (A : annotated (refresh circuit_dist))
    by (apply annotated_refresh, topo_sorted_well_formed; reflexivity).
  split; [exact A|].
  apply (proj1 (local_depth_decrease (refresh circuit_dist) 8 A)
           Distributivity rewritten_dist log_dist).
  reflexivity.
Defined.


(** * Further properties of the code *)

(** ** Nodes that are not gates *)

Lemma operands_not_gate ntk n : is_gate ntk n = false -> operands ntk n = None.
Proof. unfold is_gate, operands. now destruct (cell_of ntk n). Qed.

(** X1. On a node of the arena that is not a two-input AND (a primary input
    or the constant) [extract_and] fails, and so every rule and the dispatcher
    report no match, return the network they were given and make no call. *)
Theorem rules_ignore_non_gates (r : rule) (n : node) (ntk : network) :
  n < size ntk ->
  is_gate ntk n = false ->
  extract_and ntk n = None /\
  apply_rule r n ntk = (false, ntk, []) /\
  try_algebraic_rules n ntk = (false, ntk, []).
Proof.
  intros _ G. pose proof (operands_not_gate _ _ G) as O.
  assert (E : extract_and ntk n = None).
  { unfold extract_and, fanin_size, fanins. unfold is_gate in G.
    now destruct (cell_of ntk n). }
  assert (A : forall r', apply_rule r' n ntk = (false, ntk, [])).
  { intros [| |]; simpl.
    - rewrite try_associativity_refines. unfold assoc_pattern. now rewrite O.
    - rewrite try_distributivity_refines. unfold dist_pattern. now rewrite O.
    - rewrite try_3l_distributivity_refines. unfold dist3_pattern. now rewrite O. }
  split; [exact E|]. split; [apply A|].
  rewrite try_algebraic_rules_first.
  rewrite (A Associativity : try_associativity n ntk = _). simpl.
  rewrite (A Distributivity : try_distributivity n ntk = _). simpl.
  apply (A ThreeLayerDistributivity).
Qed.

Lemma rules_ignore_non_gates_witness :
  1 < size circuit_assoc /\ is_gate circuit_assoc 1 = false /\
  try_algebraic_rules 1 circuit_assoc = (false, circuit_assoc, []) /\
  0 < size circuit_assoc /\ is_gate circuit_assoc 0 = false /\
  apply_rule Distributivity 0 circuit_assoc = (false, circuit_assoc, []).
Proof.
  assert (L1 : 1 < size circuit_assoc) by (vm_compute; lia).
  assert (L0 : 0 < size circuit_assoc) by (vm_compute; lia).
  split; [exact L1|]. split; [reflexivity|]. split.
  - apply (rules_ignore_non_gates Associativity 1 circuit_assoc L1). reflexivity.
  - split; [exact L0|]. split; [reflexivity|].
    apply (rules_ignore_non_gates Distributivity 0 circuit_assoc L0). reflexivity.
Defined.

(** ** The rules exclude one another *)

Lemma try_associativity_fires n ntk :
  fst (fst (try_associativity n ntk)) = true ->
  exists l rl rr, assoc_pattern ntk n = Some (l, rl, rr).
Proof.
  rewrite try_associativity_refines.
  destruct (assoc_pattern ntk n) as [[[l rl] rr]|]; [eauto | discriminate].
Qed.

Lemma try_distributivity_fires n ntk :
  fst (fst (try_distributivity n ntk)) = true ->
  exists d1 c d2, dist_pattern ntk n = Some (d1, c, d2).
Proof.
  rewrite try_distributivity_refines.
  destruct (dist_pattern ntk n) as [[[d1 c] d2]|]; [eauto | discriminate].
Qed.

Lemma try_3l_distributivity_fires n ntk :
  fst (fst (try_3l_distributivity n ntk)) = true ->
  exists l rl rrl rrr, dist3_pattern ntk n = Some (l, rl, rrl, rrr).
Proof.
  rewrite try_3l_distributivity_refines.
  destruct (dist3_pattern ntk n) as [[[[l rl] rrl] rrr]|]; [eauto | discriminate].
Qed.

Lemma gate_operands_eq ntk n a b c d :
  cell_of ntk n = Gate a b \/ cell_of ntk n = Gate b a ->
  cell_of ntk n = Gate c d \/ cell_of ntk n = Gate d c ->
  (a = c /\ b = d) \/ (a = d /\ b = c).
Proof. intros [H|H] [K|K]; rewrite H in K; injection K as <- <-; tauto. Qed.

(** X2. No node matches two rules.  When associativity fires on a node,
    neither distributivity nor three-layer distributivity fires on it (the
    deeper operand is required to be plain by the one and complemented by the
    others); and on a network with a consistent level annotation, when
    distributivity fires, three-layer distributivity does not (the two
    operands then have the same level).  So the order in which the dispatcher
    tries the rules never decides which rule rewrites a node. *)
Theorem rules_exclusive (n : node) (ntk : network) :
  (fst (fst (try_associativity n ntk)) = true ->
   fst (fst (try_distributivity n ntk)) = false /\
   fst (fst (try_3l_distributivity n ntk)) = false) /\
  (annotated ntk -> fst (fst (try_distributivity n ntk)) = true ->
   fst (fst (try_3l_distributivity n ntk)) = false).
Proof.
  split.
  - intros H. destruct (try_associativity_fires _ _ H) as (l & rl & rr & P).
    destruct (assoc_pattern_inv _ _ _ _ _ P) as (r & Gn & _ & H1 & Cr & _).
    split.
    + destruct (fst (fst (try_distributivity n ntk))) eqn:D; [|reflexivity].
      destruct (try_distributivity_fires _ _ D) as (d1 & c & d2 & Q).
      destruct (dist_pattern_inv _ _ _ _ _ Q) as (L & R & Gn' & CL & CR & _).
      destruct (gate_operands_eq _ _ _ _ _ _ Gn (or_introl Gn')) as [[-> ->]|[-> ->]];
        congruence.
    + destruct (fst (fst (try_3l_distributivity n ntk))) eqn:D; [|reflexivity].
      destruct (try_3l_distributivity_fires _ _ D) as (l' & rl' & rrl & rrr & Q).
      destruct (dist3_pattern_inv _ _ _ _ _ _ Q)
        as (r' & rr' & Gn' & _ & _ & H1' & Cr' & _).
      destruct (gate_operands_eq _ _ _ _ _ _ Gn Gn') as [[-> ->]|[-> ->]];
        [congruence | lia].
  - intros A H. destruct (try_distributivity_fires _ _ H) as (d1 & c & d2 & Q).
    destruct (dist_pattern_inv _ _ _ _ _ Q) as (L & R & Gn & _ & _ & Gl & Gr & H1 & H2).
    destruct (fst (fst (try_3l_distributivity n ntk))) eqn:D; [|reflexivity].
    destruct (try_3l_distributivity_fires _ _ D) as (l' & rl' & rrl & rrr & Q').
    destruct (dist3_pattern_inv _ _ _ _ _ _ Q') as (r' & rr' & Gn' & _ & _ & H1' & _).
    pose proof A as [W _]. unfold slevel in *. rewrite !(annotated_level _ _ A) in *.
    destruct (gate_facts _ _ _ _ W Gl) as (_ & _ & _ & Ll & _).
    destruct (gate_facts _ _ _ _ W Gr) as (_ & _ & _ & Lr & _).
    destruct (gate_operands_eq _ _ _ _ _ _ (or_introl Gn) Gn') as [[-> ->]|[-> ->]]; lia.
Qed.

Lemma rules_exclusive_witness :
  fst (fst (try_associativity 11 (refresh circuit_assoc))) = true /\
  fst (fst (try_distributivity 11 (refresh circuit_assoc))) = false /\
  fst (fst (try_3l_distributivity 11 (refresh circuit_assoc))) = false /\
  annotated (refresh circuit_dist) /\
  fst (fst (try_distributivity 8 (refresh circuit_dist))) = true /\
  fst (fst (try_3l_distributivity 8 (refresh circuit_dist))) = false.
Proof.
  assert (A : annotated (refresh circuit_dist))
    by (apply annotated_refresh, topo_sorted_well_formed; reflexivity).
  split; [reflexivity|].
  destruct (proj1 (rules_exclusive 11 (refresh circuit_assoc)) eq_refl) as [D T].
  split; [exact D|]. split; [exact T|]. split; [exact A|]. split; [reflexivity|].
  apply (proj2 (rules_exclusive 8 (refresh circuit_dist)) A). reflexivity.
Defined.

(** ** Shallow nodes and shallow networks *)

Lemma foreach_gate_quiet ns : forall cont ntk,
  (forall n, In n ns -> live_gate ntk n = true ->
             try_algebraic_rules n ntk = (false, ntk, [])) ->
  foreach_gate ns cont ntk = (cont, ntk, []).
Proof.
  induction ns as [|n ns IH]; intros cont ntk H; simpl; [reflexivity|].
  assert (H' : forall m, In m ns -> live_gate ntk m = true ->
                         try_algebraic_rules m ntk = (false, ntk, []))
    by (intros m I; apply H; now right).
  fold (live_gate ntk n). destruct (live_gate ntk n) eqn:G; [|now apply IH].
  unfold bind. rewrite visit_eq, (H n (or_introl eq_refl) G).
  now rewrite (IH cont ntk H').
Qed.

Lemma attempt_not_fired ntk n p :
  attempt ntk n p -> fst (fst p) = false -> p = (false, ntk, []).
Proof. intros [|cs s k C X] F; [reflexivity | discriminate F]. Qed.

Lemma rule_level_threshold r n ntk :
  annotated ntk -> fst (fst (apply_rule r n ntk)) = true ->
  match r with ThreeLayerDistributivity => 4 | _ => 3 end <= level ntk n.
Proof.
  intros A H. rewrite (annotated_level _ _ A). destruct r; simpl in H.
  - destruct (try_associativity_fires _ _ H) as (l & rl & rr & P).
    destruct (assoc_action_spec _ _ _ _ _ A P) as (_ & _ & _ & _ & _ & L & _).
    destruct (assoc_pattern_inv _ _ _ _ _ P) as (_ & _ & _ & _ & _ & H2).
    unfold slevel in H2. rewrite !(annotated_level _ _ A) in H2. lia.
  - destruct (try_distributivity_fires _ _ H) as (d1 & c & d2 & P).
    destruct (dist_action_spec _ _ _ _ _ A P) as (_ & _ & _ & _ & _ & L & _).
    destruct (dist_pattern_inv _ _ _ _ _ P) as (_ & _ & _ & _ & _ & _ & _ & H1 & _).
    unfold slevel in H1. rewrite !(annotated_level _ _ A) in H1. lia.
  - destruct (try_3l_distributivity_fires _ _ H) as (l & rl & rrl & rrr & P).
    destruct (dist3_action_spec _ _ _ _ _ _ A P) as (_ & _ & _ & _ & _ & _ & _ & L & _).
    destruct (dist3_pattern_inv _ _ _ _ _ _ P)
      as (_ & _ & _ & _ & _ & _ & _ & _ & _ & H3).
    unfold slevel in H3. rewrite !(annotated_level _ _ A) in H3. lia.
Qed.

(** X3. On a network with a consistent level annotation a rule only fires on
    a node of level at least three (at least four for three-layer
    distributivity).  Hence a network all of whose nodes have level at most
    two is left as it is: the run returns after one scan, with the same
    network and without a call. *)
Theorem shallow_nodes_untouched (ntk : network) :
  annotated ntk ->
  (forall r n, fst (fst (apply_rule r n ntk)) = true ->
     match r with ThreeLayerDistributivity => 4 | _ => 3 end <= level ntk n) /\
  ((forall n, level ntk n <= 2) -> forall f, run (S f) ntk = Some (ntk, [])).
Proof.
  intros A. split; [intros r n; now apply rule_level_threshold|].
  intros Sh f.
  assert (Q : forall r n, apply_rule r n ntk = (false, ntk, [])).
  { intros r n. apply (attempt_not_fired ntk n); [apply apply_rule_attempt|].
    destruct (fst (fst (apply_rule r n ntk))) eqn:F; [|reflexivity].
    pose proof (rule_level_threshold r n ntk A F) as T. specialize (Sh n).
    destruct r; lia. }
  assert (Sc : scan ntk = (false, ntk, [])).
  { unfold scan. apply foreach_gate_quiet. intros n _ _.
    rewrite try_algebraic_rules_first.
    rewrite (Q Associativity n : try_associativity n ntk = _). simpl.
    rewrite (Q Distributivity n : try_distributivity n ntk = _). simpl.
    apply (Q ThreeLayerDistributivity n). }
  simpl. now rewrite Sc.
Qed.

Lemma shallow_nodes_untouched_witness :
  annotated (refresh circuit_shallow) /\
  (forall n, level (refresh circuit_shallow) n <= 2) /\
  run 1 (refresh circuit_shallow) = Some (refresh circuit_shallow, []) /\
  3 <= level (refresh circuit_dist) 8.
Proof.
  assert (A : annotated (refresh circuit_shallow))
    by (apply annotated_refresh, topo_sorted_well_formed; reflexivity).
  assert (Sh : forall n, level (refresh circuit_shallow) n <= 2).
  { intros n. do 4 (destruct n as [|n]; [vm_compute; lia|]).
    unfold level. simpl. destruct n; lia. }
  split; [exact A|]. split; [exact Sh|]. split.
  - apply (proj2 (shallow_nodes_untouched (refresh circuit_shallow) A) Sh 0).
  - apply (proj1 (shallow_nodes_untouched (refresh circuit_dist)
                    (annotated_refresh _ (topo_sorted_well_formed circuit_dist eq_refl)))
             Distributivity 8).
    reflexivity.
Defined.

(** ** The network a run returns *)

Lemma foreach_gate_silent ns : forall cont ntk c ntk',
  foreach_gate ns cont ntk = (c, ntk', []) ->
  forall n, In n ns -> live_gate ntk n = true ->
            try_algebraic_rules n ntk = (false, ntk, []).
Proof.
  induction ns as [|m ns IH]; intros cont ntk c ntk' H n I G; [destruct I|].
  simpl in H. fold (live_gate ntk m) in H.
  destruct (live_gate ntk m) eqn:Gm.
  - unfold bind in H. rewrite visit_eq in H.
    pose proof (try_algebraic_rules_attempt m ntk) as At.
    destruct (try_algebraic_rules m ntk) as [[b g] e] eqn:T.
    destruct b.
    + destruct (foreach_gate ns true (refresh g)) as [[c2 ntk2] e2].
      injection H as _ _ H. apply app_eq_nil in H. destruct H as [H _].
      apply app_eq_nil in H. destruct H as [_ H]. discriminate H.
    + pose proof (attempt_not_fired _ _ _ At eq_refl) as E.
      injection E as -> ->.
      destruct (foreach_gate ns cont ntk) as [[c2 ntk2] e2] eqn:F.
      injection H as <- <- ->. destruct I as [<-|I]; [exact T|].
      now apply (IH _ _ _ _ F).
  - destruct I as [<-|I]; [congruence|]. now apply (IH _ _ _ _ H).
Qed.

Lemma dispatcher_quiet_rules n ntk :
  try_algebraic_rules n ntk = (false, ntk, []) ->
  forall r, apply_rule r n ntk = (false, ntk, []).
Proof.
  intros H r. rewrite try_algebraic_rules_first in H.
  assert (A1 : try_associativity n ntk = (false, ntk, [])).
  { apply (attempt_not_fired ntk n); [apply try_associativity_attempt|].
    destruct (fst (fst (try_associativity n ntk))) eqn:F; [|reflexivity].
    rewrite H in F. discriminate F. }
  rewrite A1 in H. simpl in H.
  assert (A2 : try_distributivity n ntk = (false, ntk, [])).
  { apply (attempt_not_fired ntk n); [apply try_distributivity_attempt|].
    destruct (fst (fst (try_distributivity n ntk))) eqn:F; [|reflexivity].
    rewrite H in F. discriminate F. }
  rewrite A2 in H. simpl in H.
  destruct r; simpl; assumption.
Qed.

(** X4. The network a run returns is in normal form: on every node that is
    not dead each of the three rules reports no match.  (A run stops only
    after a scan in which no rule fired, and that scan tried every live
    gate.) *)
Theorem run_result_normal_form (fuel : nat) (ntk ntk' : network) (es : list event) :
  run fuel ntk = Some (ntk', es) ->
  forall r n, is_dead ntk' n = false -> apply_rule r n ntk' = (false, ntk', []).
Proof.
  intros H r n D. destruct (is_gate ntk' n) eqn:G.
  - pose proof (run_fixpoint _ _ _ _ H) as F. unfold scan in F.
    apply dispatcher_quiet_rules.
    apply (foreach_gate_silent _ _ _ _ _ F).
    + apply in_seq. unfold is_gate in G.
      destruct (cell_of ntk' n) eqn:E; try discriminate.
      pose proof (cell_of_gate_lt _ _ _ _ E). lia.
    + unfold live_gate. now rewrite G, D.
  - pose proof (operands_not_gate _ _ G) as O. destruct r; simpl.
    + rewrite try_associativity_refines. unfold assoc_pattern. now rewrite O.
    + rewrite try_distributivity_refines. unfold dist_pattern. now rewrite O.
    + rewrite try_3l_distributivity_refines. unfold dist3_pattern. now rewrite O.
Qed.

Lemma run_result_normal_form_witness :
  run 2 (refresh circuit_assoc) = Some (rewritten_assoc, tl log_assoc) /\
  is_dead rewritten_assoc 13 = false /\
  apply_rule Associativity 13 rewritten_assoc = (false, rewritten_assoc, []).
Proof.
  assert (H : run 2 (refresh circuit_assoc) = Some (rewritten_assoc, tl log_assoc))
    by (vm_compute; reflexivity).
  split; [exact H|]. split; [reflexivity|].
  apply (run_result_normal_form 2 (refresh circuit_assoc) rewritten_assoc
           (tl log_assoc) H Associativity 13).
  reflexivity.
Defined.

(** X5. A run keeps the depth view consistent with the structure.  When it
    is started on an acyclic network whose levels are the structural ones,
    the network it returns is acyclic again, every output refers to a node of
    the arena, and the stored level of every gate is one more than the larger
    of the levels of its two fanins, that of any other node is zero. *)
Theorem run_keeps_annotation (fuel : nat) (ntk ntk' : network) (es : list event) :
  annotated ntk -> run fuel ntk = Some (ntk', es) ->
  acyclic ntk' /\
  (forall n a b, cell_of ntk' n = Gate a b ->
     index a < size ntk' /\ index b < size ntk' /\
     level ntk' n = S (Nat.max (level ntk' (index a)) (level ntk' (index b)))) /\
  (forall n, is_gate ntk' n = false -> level ntk' n = 0).
Proof.
  intros A H. destruct (run_preserved _ _ _ _ A H) as (A' & _).
  pose proof A' as [W' _]. split; [now apply well_formed_acyclic|]. split.
  - intros n a b E. destruct (gate_facts _ _ _ _ W' (or_introl E)) as (Ia & Ib & _ & L & _).
    rewrite !(annotated_level _ _ A'). tauto.
  - intros n G. rewrite (annotated_level _ _ A'). now apply structural_level_not_gate.
Qed.

Lemma run_keeps_annotation_witness :
  annotated (refresh circuit_assoc) /\
  run 2 (refresh circuit_assoc) = Some (rewritten_assoc, tl log_assoc) /\
  acyclic rewritten_assoc /\ level rewritten_assoc 13 = 3.
Proof.
  assert (A : annotated (refresh circuit_assoc))
    by (apply annotated_refresh, topo_sorted_well_formed; reflexivity).
  assert (H : run 2 (refresh circuit_assoc) = Some (rewritten_assoc, tl log_assoc))
    by (vm_compute; reflexivity).
  split; [exact A|]. split; [exact H|]. split; [|reflexivity].
  apply (run_keeps_annotation 2 (refresh circuit_assoc) rewritten_assoc (tl log_assoc) A H).
Defined.

(** ** What a run keeps of every node *)

Lemma structural_level_refresh ntk x :
  structural_level (refresh ntk) x = structural_level ntk x.
Proof.
  unfold structural_level. change (size (refresh ntk)) with (size ntk).
  now apply compute_level_nodes.
Qed.

Lemma framed_refl ntk : framed ntk ntk.
Proof. repeat split; auto. Qed.

Lemma framed_trans a b c : framed a b -> framed b c -> framed a c.
Proof.
  intros (S1 & L1 & V1) (S2 & L2 & V2). split; [lia|]. split.
  - intros x Lx. specialize (L1 x Lx). specialize (L2 x ltac:(lia)). lia.
  - intros env x Lx. rewrite V2 by lia. now apply V1.
Qed.

Lemma rewritten_framed ntk n s ntk' :
  rewritten ntk n s ntk' -> framed ntk (refresh ntk').
Proof.
  intros RW. split; [apply (rw_size _ _ _ _ RW)|]. split.
  - intros x Lx. rewrite structural_level_refresh. now apply (rw_level _ _ _ _ RW).
  - intros env x Lx. rewrite node_value_refresh. now apply (rw_value _ _ _ _ RW).
Qed.

Lemma visit_framed n cont ntk :
  annotated ntk -> framed ntk (snd (fst (visit n cont ntk))).
Proof.
  intros A. rewrite visit_eq.
  destruct (try_algebraic_rules_outcome n ntk A) as [|cs s ntk' C RW]; simpl.
  - apply framed_refl.
  - now apply (rewritten_framed ntk n s).
Qed.

Lemma foreach_gate_framed ns : forall cont ntk,
  annotated ntk -> framed ntk (snd (fst (foreach_gate ns cont ntk))).
Proof.
  induction ns as [|n ns IH]; intros cont ntk A; simpl.
  - apply framed_refl.
  - destruct (is_gate ntk n && negb (is_dead ntk n)); [|now apply IH].
    unfold bind. pose proof (visit_preserved n cont ntk A) as P.
    pose proof (visit_framed n cont ntk A) as F.
    destruct (visit n cont ntk) as [[c ntk1] e1]. simpl in P, F.
    pose proof (IH c ntk1 (proj1 P)) as Q.
    destruct (foreach_gate ns c ntk1) as [[c2 ntk2] e2]. simpl in *.
    now apply (framed_trans _ ntk1).
Qed.

Lemma run_framed fuel : forall ntk ntk' es,
  annotated ntk -> run fuel ntk = Some (ntk', es) -> framed ntk ntk'.
Proof.
  induction fuel as [|f IH]; intros ntk ntk' es A H; simpl in H; [discriminate|].
  pose proof (scan_preserved ntk A) as P.
  pose proof (foreach_gate_framed (seq 0 (size ntk)) false ntk A) as F.
  fold (scan ntk) in F.
  destruct (scan ntk) as [[c ntk1] e1]. simpl in P, F. destruct c.
  - destruct (run f ntk1) as [[ntk2 e2]|] eqn:R; [|discriminate].
    injection H as <- <-. apply (framed_trans _ _ _ F).
    apply (IH _ _ _ (proj1 P) R).
  - injection H as <- <-. exact F.
Qed.

(** X6. A run changes the value of no node: every node of the network the
    run was started on, gate or input, retired or not, has in the returned
    network the value it had, for every assignment of the primary inputs; and
    no node is removed from the arena. *)
Theorem run_keeps_node_values (fuel : nat) (ntk ntk' : network) (es : list event) :
  annotated ntk -> run fuel ntk = Some (ntk', es) ->
  size ntk <= size ntk' /\
  forall env x, x < size ntk -> node_value ntk' env x = node_value ntk env x.
Proof.
  intros A H. destruct (run_framed _ _ _ _ A H) as (Sz & _ & V). now split.
Qed.

Lemma run_keeps_node_values_witness :
  annotated (refresh circuit_assoc) /\
  run 2 (refresh circuit_assoc) = Some (rewritten_assoc, tl log_assoc) /\
  node_value rewritten_assoc all_true 11 = node_value (refresh circuit_assoc) all_true 11.
Proof.
  assert (A : annotated (refresh circuit_assoc))
    by (apply annotated_refresh, topo_sorted_well_formed; reflexivity).
  assert (H : run 2 (refresh circuit_assoc) = Some (rewritten_assoc, tl log_assoc))
    by (vm_compute; reflexivity).
  split; [exact A|]. split; [exact H|].
  apply (proj2 (run_keeps_node_values 2 (refresh circuit_assoc) rewritten_assoc
                  (tl log_assoc) A H)).
  vm_compute. lia.
Defined.

(** X7. A run makes no node deeper: the level that the returned network
    stores for a node of the network the run was started on is at most the
    level that was stored for it before (for every node, not only for the
    outputs). *)
Theorem run_levels_non_increasing (fuel : nat) (ntk ntk' : network) (es : list event) :
  annotated ntk -> run fuel ntk = Some (ntk', es) ->
  forall x, x < size ntk -> level ntk' x <= level ntk x.
Proof.
  intros A H x Lx. destruct (run_framed _ _ _ _ A H) as (_ & L & _).
  destruct (run_preserved _ _ _ _ A H) as (A' & _).
  rewrite (annotated_level _ _ A), (annotated_level _ _ A'). now apply L.
Qed.

Lemma run_levels_non_increasing_witness :
  annotated (refresh circuit_assoc) /\
  run 2 (refresh circuit_assoc) = Some (rewritten_assoc, tl log_assoc) /\
  level rewritten_assoc 10 <= level (refresh circuit_assoc) 10.
Proof.
  assert (A : annotated (refresh circuit_assoc))
    by (apply annotated_refresh, topo_sorted_well_formed; reflexivity).
  assert (H : run 2 (refresh circuit_assoc) = Some (rewritten_assoc, tl log_assoc))
    by (vm_compute; reflexivity).
  split; [exact A|]. split; [exact H|].
  apply (run_levels_non_increasing 2 (refresh circuit_assoc) rewritten_assoc
           (tl log_assoc) A H).
  vm_compute. lia.
Defined.

(** ** Growth of the arena; inputs and outputs *)

Lemma grows_refl ntk : grows 0 ntk ntk.
Proof. unfold grows. repeat split; auto; intros; lia. Qed.

Lemma grows_weaken k k' a b : grows k a b -> k <= k' -> grows k' a b.
Proof. unfold grows. intros (S1 & S2 & G & N & P & O) L. repeat split; auto; lia. Qed.

Lemma grows_trans k1 k2 a b c : grows k1 a b -> grows k2 b c -> grows (k1 + k2) a c.
Proof.
  intros (S1 & T1 & G1 & N1 & P1 & O1) (S2 & T2 & G2 & N2 & P2 & O2).
  split; [lia|]. split; [lia|]. split; [|split; [|split]].
  - intros x Lx. rewrite G2 by lia. now apply G1.
  - intros x Lx Ux. destruct (Nat.lt_ge_cases x (size b)) as [Q|Q].
    + rewrite G2 by exact Q. now apply N1.
    + now apply N2.
  - intros x. now rewrite P2.
  - congruence.
Qed.

Lemma and_node_grows a b ntk s ntk1 : and_node a b ntk = (s, ntk1) -> grows 1 ntk ntk1.
Proof.
  unfold and_node. destruct (find_gate (dead ntk) a b (nodes ntk) 0); intros H;
    injection H as <- <-.
  - apply (grows_weaken 0); [apply grows_refl | lia].
  - assert (Z : size (with_nodes ntk (nodes ntk ++ [Gate a b])) = S (size ntk))
      by (unfold size; simpl; rewrite length_app; simpl; lia).
    assert (C : forall x, cell_of (with_nodes ntk (nodes ntk ++ [Gate a b])) x
                          = if x <? size ntk then cell_of ntk x
                            else if x =? size ntk then Gate a b else Constant).
    { intros x. unfold cell_of, size. simpl.
      destruct (Nat.ltb_spec x (length (nodes ntk))) as [L|L].
      - now apply app_nth1.
      - rewrite app_nth2 by exact L.
        destruct (Nat.eqb_spec x (length (nodes ntk))) as [->|N].
        + now rewrite Nat.sub_diag.
        + destruct (x - length (nodes ntk)) as [|[|k]] eqn:E; [lia | reflexivity | reflexivity]. }
    unfold grows. rewrite Z. split; [lia|]. split; [lia|]. split; [|split; [|split]].
    + intros x Lx. unfold is_gate. rewrite C.
      destruct (Nat.ltb_spec x (size ntk)); [reflexivity | lia].
    + intros x Lx Ux. unfold is_gate. rewrite C.
      destruct (Nat.ltb_spec x (size ntk)); [lia|].
      destruct (Nat.eqb_spec x (size ntk)); [reflexivity | lia].
    + intros x. unfold is_pi. rewrite C.
      destruct (Nat.ltb_spec x (size ntk)) as [L|L]; [reflexivity|].
      unfold cell_of. rewrite (nth_overflow (nodes ntk)) by exact L.
      now destruct (x =? size ntk).
    + reflexivity.
Qed.

Lemma rewire_grows old new ntk : grows 0 ntk (rewire old new ntk).
Proof.
  unfold grows. rewrite rewire_size. split; [lia|]. split; [lia|].
  split; [|split; [|split]].
  - intros x _. unfold is_gate. rewrite rewire_cell. now destruct (cell_of ntk x).
  - intros x L U. lia.
  - intros x. unfold is_pi. rewrite rewire_cell. now destruct (cell_of ntk x).
  - simpl. apply length_map.
Qed.

Lemma refresh_grows ntk : grows 0 ntk (refresh ntk).
Proof. unfold grows, is_gate, is_pi, cell_of, size. simpl. repeat split; auto; intros; lia. Qed.

Lemma apply_rule_grows r n ntk :
  grows (max_growth r) ntk (snd (fst (apply_rule r n ntk))).
Proof.
  destruct r; simpl.
  - rewrite try_associativity_refines.
    destruct (assoc_pattern ntk n) as [[[l rl] rr]|];
      [|apply (grows_weaken 0); [apply grows_refl | lia]].
    unfold assoc_action, bind, create_and, substitute_node, ret.
    destruct (and_node l rl ntk) as [s1 g1] eqn:E1.
    destruct (and_node s1 rr g1) as [s2 g2] eqn:E2. simpl.
    apply (grows_trans 2 0 _ g2); [|apply rewire_grows].
    apply (grows_trans 1 1 _ g1); eapply and_node_grows; eassumption.
  - rewrite try_distributivity_refines.
    destruct (dist_pattern ntk n) as [[[d1 c] d2]|];
      [|apply (grows_weaken 0); [apply grows_refl | lia]].
    unfold dist_action, bind, create_not, create_nand, substitute_node, ret.
    destruct (and_node (negate d1) (negate d2) ntk) as [s1 g1] eqn:E1.
    destruct (and_node c (negate s1) g1) as [s2 g2] eqn:E2. simpl.
    apply (grows_trans 2 0 _ g2); [|apply rewire_grows].
    apply (grows_trans 1 1 _ g1); eapply and_node_grows; eassumption.
  - rewrite try_3l_distributivity_refines.
    destruct (dist3_pattern ntk n) as [[[[l rl] rrl] rrr]|];
      [|apply (grows_weaken 0); [apply grows_refl | lia]].
    unfold dist3_action, bind, create_not, create_nand, create_and, substitute_node, ret.
    destruct (and_node l (negate rl) ntk) as [s1 g1] eqn:E1.
    destruct (and_node l rrl g1) as [s2 g2] eqn:E2.
    destruct (and_node s2 rrr g2) as [s3 g3] eqn:E3.
    destruct (and_node (negate s1) (negate s3) g3) as [s4 g4] eqn:E4. simpl.
    apply (grows_trans 4 0 _ g4); [|apply rewire_grows].
    apply (grows_trans 3 1 _ g3); [|eapply and_node_grows; eassumption].
    apply (grows_trans 2 1 _ g2); [|eapply and_node_grows; eassumption].
    apply (grows_trans 1 1 _ g1); eapply and_node_grows; eassumption.
Qed.

(** X8. A rule attempt adds at most two gates to the arena for associativity
    and for distributivity, at most four for three-layer distributivity, and
    nothing else: no node is removed, the nodes that were there keep their
    kind, the added nodes are gates, the primary inputs and the number of
    outputs stay the same. *)
Theorem rule_growth (r : rule) (n : node) (ntk : network) :
  let ntk' := snd (fst (apply_rule r n ntk)) in
  size ntk <= size ntk' /\ size ntk' <= size ntk + max_growth r /\
  (forall x, x < size ntk -> is_gate ntk' x = is_gate ntk x) /\
  (forall x, size ntk <= x -> x < size ntk' -> is_gate ntk' x = true) /\
  (forall x, is_pi ntk' x = is_pi ntk x) /\
  length (outputs ntk') = length (outputs ntk).
Proof. exact (apply_rule_grows r n ntk). Qed.

Lemma rule_growth_witness :
  size rewritten_dist3 = size (refresh circuit_dist3) + 4 /\
  size rewritten_dist3 <= size (refresh circuit_dist3) + max_growth ThreeLayerDistributivity.
Proof.
  split; [reflexivity|].
  apply (proj1 (proj2 (rule_growth ThreeLayerDistributivity 9 (refresh circuit_dist3)))).
Defined.

Lemma attempt_grows ntk n p k :
  attempt ntk n p -> grows k ntk (snd (fst p)) -> k <= 4 ->
  grows (4 * substitutions (snd p)) ntk (snd (fst p)).
Proof.
  intros [|cs s g C X] G L; simpl in *.
  - apply grows_refl.
  - rewrite substitutions_app, (substitutions_constructions _ C).
    apply (grows_weaken k); [exact G | unfold substitutions; simpl; lia].
Qed.

Lemma try_algebraic_rules_grows n ntk :
  grows (4 * substitutions (snd (try_algebraic_rules n ntk))) ntk
        (snd (fst (try_algebraic_rules n ntk))).
Proof.
  rewrite try_algebraic_rules_first.
  destruct (fst (fst (try_associativity n ntk))).
  - apply (attempt_grows ntk n _ 2);
      [apply try_associativity_attempt | apply (apply_rule_grows Associativity) | lia].
  - destruct (fst (fst (try_distributivity n ntk))).
    + apply (attempt_grows ntk n _ 2);
        [apply try_distributivity_attempt | apply (apply_rule_grows Distributivity) | lia].
    + apply (attempt_grows ntk n _ 4);
        [apply try_3l_distributivity_attempt
        | apply (apply_rule_grows ThreeLayerDistributivity) | lia].
Qed.

Lemma visit_grows n cont ntk :
  grows (4 * substitutions (snd (visit n cont ntk))) ntk (snd (fst (visit n cont ntk))).
Proof.
  rewrite visit_eq. pose proof (try_algebraic_rules_grows n ntk) as G.
  destruct (try_algebraic_rules n ntk) as [[b g] e]. cbn [fst snd] in G.
  destruct b; cbn [fst snd]; [|exact G].
  apply (grows_weaken (4 * substitutions e + 0)).
  - apply (grows_trans _ _ _ g); [exact G | apply refresh_grows].
  - rewrite substitutions_app. unfold substitutions at 3. simpl. lia.
Qed.

Lemma foreach_gate_grows ns : forall cont ntk,
  grows (4 * substitutions (snd (foreach_gate ns cont ntk))) ntk
        (snd (fst (foreach_gate ns cont ntk))).
Proof.
  induction ns as [|n ns IH]; intros cont ntk.
  - apply grows_refl.
  - cbn [foreach_gate].
    destruct (is_gate ntk n && negb (is_dead ntk n)); [|apply IH].
    unfold bind. pose proof (visit_grows n cont ntk) as G.
    destruct (visit n cont ntk) as [[c g] e]. cbn [fst snd] in G.
    pose proof (IH c g) as G'.
    destruct (foreach_gate ns c g) as [[c2 g2] e2]. cbn [fst snd] in *.
    apply (grows_weaken (4 * substitutions e + 4 * substitutions e2)).
    + now apply (grows_trans _ _ _ g).
    + rewrite substitutions_app. lia.
Qed.

Lemma run_grows fuel : forall ntk ntk' es,
  run fuel ntk = Some (ntk', es) -> grows (4 * substitutions es) ntk ntk'.
Proof.
  induction fuel as [|f IH]; intros ntk ntk' es H; [discriminate|].
  cbn [run] in H.
  pose proof (foreach_gate_grows (seq 0 (size ntk)) false ntk) as G.
  fold (scan ntk) in G. destruct (scan ntk) as [[c g] e]. cbn [fst snd] in G.
  destruct c.
  - destruct (run f g) as [[g2 e2]|] eqn:R; [|discriminate].
    injection H as <- <-.
    apply (grows_weaken (4 * substitutions e + 4 * substitutions e2)).
    + apply (grows_trans _ _ _ g); [exact G | now apply IH].
    + rewrite substitutions_app. lia.
  - now injection H as <- <-.
Qed.

(** X9. A run leaves the interface of the circuit alone and grows the arena
    by at most four gates for each substitution it makes: no node is removed,
    the nodes that were there keep their kind, every added node is a gate, the
    primary inputs are the same nodes and the number of outputs is the
    same. *)
Theorem run_growth (fuel : nat) (ntk ntk' : network) (es : list event) :
  run fuel ntk = Some (ntk', es) ->
  size ntk <= size ntk' /\ size ntk' <= size ntk + 4 * substitutions es /\
  (forall x, x < size ntk -> is_gate ntk' x = is_gate ntk x) /\
  (forall x, size ntk <= x -> x < size ntk' -> is_gate ntk' x = true) /\
  (forall x, is_pi ntk' x = is_pi ntk x) /\
  length (outputs ntk') = length (outputs ntk).
Proof. intros H. exact (run_grows _ _ _ _ H). Qed.

Lemma run_growth_witness :
  run 2 (refresh circuit_assoc) = Some (rewritten_assoc, tl log_assoc) /\
  size rewritten_assoc <= size (refresh circuit_assoc) + 4 * substitutions (tl log_assoc) /\
  substitutions (tl log_assoc) = 1 /\ size rewritten_assoc = size (refresh circuit_assoc) + 2.
Proof.
  assert (H : run 2 (refresh circuit_assoc) = Some (rewritten_assoc, tl log_assoc))
    by (vm_compute; reflexivity).
  split; [exact H|]. split; [|split; reflexivity].
  apply (proj1 (proj2 (run_growth 2 (refresh circuit_assoc) rewritten_assoc
                         (tl log_assoc) H))).
Defined.

(** ** The stored order of a fanin does not matter *)

Lemma swap_cell_involutive c : swap_cell (swap_cell c) = c.
Proof. now destruct c. Qed.

Lemma same_up_to_order_sym ntk ntk' :
  same_up_to_order ntk ntk' -> same_up_to_order ntk' ntk.
Proof.
  intros [L C]. split; [now symmetry|]. intros x.
  destruct (C x) as [E|E]; rewrite E; [now left | right].
  now rewrite swap_cell_involutive.
Qed.

Lemma same_up_to_order_gate ntk ntk' x a b :
  same_up_to_order ntk ntk' ->
  cell_of ntk x = Gate a b \/ cell_of ntk x = Gate b a ->
  cell_of ntk' x = Gate a b \/ cell_of ntk' x = Gate b a.
Proof. intros [_ C] [E|E]; destruct (C x) as [K|K]; rewrite K, E; simpl; tauto. Qed.

Lemma same_up_to_order_slevel ntk ntk' s :
  same_up_to_order ntk ntk' -> slevel ntk' s = slevel ntk s.
Proof. intros [L _]. unfold slevel, level. now rewrite L. Qed.

Lemma assoc_pattern_order ntk ntk' n x :
  same_up_to_order ntk ntk' ->
  assoc_pattern ntk n = Some x -> assoc_pattern ntk' n = Some x.
Proof.
  intros Sm P. destruct x as [[l rl] rr].
  destruct (assoc_pattern_inv _ _ _ _ _ P) as (r & Gn & Gr & H1 & Cr & H2).
  apply (assoc_pattern_complete ntk' n l rl rr r);
    try (now apply (same_up_to_order_gate ntk));
    rewrite ?(same_up_to_order_slevel ntk ntk') by exact Sm; assumption.
Qed.

Lemma dist3_pattern_order ntk ntk' n x :
  same_up_to_order ntk ntk' ->
  dist3_pattern ntk n = Some x -> dist3_pattern ntk' n = Some x.
Proof.
  intros Sm P. destruct x as [[[l rl] rrl] rrr].
  destruct (dist3_pattern_inv _ _ _ _ _ _ P)
    as (r & rr & Gn & Gr & Grr & H1 & Cr & H2 & Crr & H3).
  apply (dist3_pattern_complete ntk' n l rl rrl rrr r rr);
    try (now apply (same_up_to_order_gate ntk));
    rewrite ?(same_up_to_order_slevel ntk ntk') by exact Sm; assumption.
Qed.

(** X10. Associativity and three-layer distributivity do not depend on the
    order in which a gate stores its two fanins: on two networks that differ
    only in that order (and carry the same levels), each of the two rules
    fires on the same nodes and with the same operands. *)
Theorem fanin_order_irrelevant (ntk ntk' : network) (n : node) :
  same_up_to_order ntk ntk' ->
  assoc_pattern ntk' n = assoc_pattern ntk n /\
  dist3_pattern ntk' n = dist3_pattern ntk n /\
  fst (fst (try_associativity n ntk')) = fst (fst (try_associativity n ntk)) /\
  fst (fst (try_3l_distributivity n ntk')) = fst (fst (try_3l_distributivity n ntk)).
Proof.
  intros Sm. pose proof (same_up_to_order_sym _ _ Sm) as Sm'.
  assert (A : assoc_pattern ntk' n = assoc_pattern ntk n).
  { destruct (assoc_pattern ntk n) as [x|] eqn:P.
    - now apply (assoc_pattern_order ntk).
    - destruct (assoc_pattern ntk' n) as [y|] eqn:Q; [|reflexivity].
      rewrite (assoc_pattern_order _ _ _ _ Sm' Q) in P. discriminate. }
  assert (D : dist3_pattern ntk' n = dist3_pattern ntk n).
  { destruct (dist3_pattern ntk n) as [x|] eqn:P.
    - now apply (dist3_pattern_order ntk).
    - destruct (dist3_pattern ntk' n) as [y|] eqn:Q; [|reflexivity].
      rewrite (dist3_pattern_order _ _ _ _ Sm' Q) in P. discriminate. }
  split; [exact A|]. split; [exact D|]. split.
  - rewrite !try_associativity_refines, A.
    destruct (assoc_pattern ntk n) as [[[l rl] rr]|]; [|reflexivity].
    now rewrite !assoc_action_fires.
  - rewrite !try_3l_distributivity_refines, D.
    destruct (dist3_pattern ntk n) as [[[[l rl] rrl] rrr]|]; [|reflexivity].
    now rewrite !dist3_action_fires.
Qed.

Lemma fanin_order_irrelevant_witness :
  same_up_to_order (refresh circuit_assoc) circuit_assoc_swapped /\
  assoc_pattern circuit_assoc_swapped 11 = Some (sig 1, sig 7, sig 9) /\
  fst (fst (try_associativity 11 circuit_assoc_swapped)) = true.
Proof.
  assert (Sm : same_up_to_order (refresh circuit_assoc) circuit_assoc_swapped).
  { split; [reflexivity|]. intros x.
    do 12 (destruct x as [|x]; [vm_compute; tauto|]).
    left. unfold cell_of. simpl. now destruct x. }
  split; [exact Sm|].
  destruct (fanin_order_irrelevant (refresh circuit_assoc) circuit_assoc_swapped 11 Sm)
    as (A & _ & F & _).
  split; [rewrite A | rewrite F]; reflexivity.
Defined.

(** ** No node is substituted twice *)

Lemma is_dead_false_iff ntk n : is_dead ntk n = false <-> ~ In n (dead ntk).
Proof.
  unfold is_dead. split.
  - intros H I. assert (existsb (Nat.eqb n) (dead ntk) = true); [|congruence].
    apply existsb_exists. exists n. split; [exact I | apply Nat.eqb_refl].
  - intros H. destruct (existsb (Nat.eqb n) (dead ntk)) eqn:E; [|reflexivity].
    apply existsb_exists in E. destruct E as (m & I & Q).
    apply Nat.eqb_eq in Q. subst m. contradiction.
Qed.

Lemma substituted_app es fs : substituted (es ++ fs) = substituted es ++ substituted fs.
Proof.
  induction es as [|e es IH]; [reflexivity|]. destruct e; simpl; now rewrite ?IH.
Qed.

Lemma substituted_constructions cs :
  forallb is_construction cs = true -> substituted cs = [].
Proof.
  induction cs as [|c cs IH]; [reflexivity|]. simpl. rewrite andb_true_iff.
  intros [Hc Hcs]. destruct c; try discriminate; now apply IH.
Qed.

Lemma foreach_gate_retires ns : forall cont ntk c ntk' es,
  foreach_gate ns cont ntk = (c, ntk', es) ->
  dead ntk' = rev (substituted es) ++ dead ntk /\
  NoDup (substituted es) /\
  forall n, In n (substituted es) -> ~ In n (dead ntk).
Proof.
  induction ns as [|m ns IH]; intros cont ntk c ntk' es H; simpl in H.
  - injection H as <- <- <-. repeat split; [constructor | intros n []].
  - destruct (is_gate ntk m && negb (is_dead ntk m)) eqn:G;
      [|exact (IH _ _ _ _ _ H)].
    apply andb_true_iff in G. destruct G as [_ G]. apply negb_true_iff in G.
    apply is_dead_false_iff in G.
    unfold bind in H.
    destruct (visit_visited m cont ntk) as [|cs s k C X].
    + destruct (foreach_gate ns cont ntk) as [[c2 g2] e2] eqn:F.
      injection H as <- <- <-. now apply (IH cont ntk c2).
    + destruct (foreach_gate ns true (refresh (rewire m s k))) as [[c2 g2] e2] eqn:F.
      injection H as <- <- <-. destruct (IH _ _ _ _ _ F) as (D & N & L).
      assert (Sb : substituted (cs ++ [EvSubstitute m s; EvUpdateLevels]) = [m])
        by (rewrite substituted_app, (substituted_constructions _ C); reflexivity).
      assert (Dk : dead (refresh (rewire m s k)) = m :: dead ntk)
        by (destruct X as (_ & Dd & _); simpl; now rewrite Dd).
      rewrite Dk in L.
      rewrite substituted_app, Sb. simpl. split; [|split].
      * rewrite D, Dk, <- app_assoc. reflexivity.
      * constructor; [|exact N]. intros I. apply (L _ I). now left.
      * intros n [<-|I]; [exact G|]. intros J. apply (L _ I). now right.
Qed.

Lemma run_retires fuel : forall ntk ntk' es,
  run fuel ntk = Some (ntk', es) ->
  dead ntk' = rev (substituted es) ++ dead ntk /\
  NoDup (substituted es) /\
  forall n, In n (substituted es) -> ~ In n (dead ntk).
Proof.
  induction fuel as [|f IH]; intros ntk ntk' es H; [discriminate|].
  cbn [run] in H. destruct (scan ntk) as [[c g1] e1] eqn:Sc.
  destruct (foreach_gate_retires _ _ _ _ _ _ Sc) as (D1 & N1 & L1).
  destruct c.
  - destruct (run f g1) as [[g2 e2]|] eqn:R; [|discriminate].
    injection H as <- <-. destruct (IH _ _ _ R) as (D2 & N2 & L2).
    assert (In1 : forall n, In n (substituted e1) -> In n (dead g1)).
    { intros n I. rewrite D1. apply in_or_app. left. now apply -> in_rev. }
    rewrite substituted_app. split; [|split].
    + rewrite D2, D1, rev_app_distr, <- app_assoc. reflexivity.
    + apply NoDup_app; [exact N1 | exact N2 |].
      intros n I1 I2. exact (L2 _ I2 (In1 _ I1)).
    + intros n I. apply in_app_or in I. destruct I as [I|I]; [now apply L1|].
      intros J. apply (L2 _ I). rewrite D1. apply in_or_app. now right.
  - injection H as <- <-. now split; [|split].
Qed.

(** X11. A run substitutes no node twice: the nodes substituted by a run are
    pairwise distinct, none of them was dead in the input, and the dead nodes
    of the result are those of the input together with exactly the
    substituted ones, the latest first. *)
Theorem run_substitutes_once (fuel : nat) (ntk ntk' : network) (es : list event) :
  run fuel ntk = Some (ntk', es) ->
  NoDup (substituted es) /\
  (forall n, In n (substituted es) -> is_dead ntk n = false) /\
  dead ntk' = rev (substituted es) ++ dead ntk /\
  length (substituted es) = substitutions es.
Proof.
  intros H. destruct (run_retires _ _ _ _ H) as (D & N & L).
  split; [exact N|]. split; [|split; [exact D|]].
  - intros n I. apply is_dead_false_iff. now apply L.
  - clear. induction es as [|e es IH]; [reflexivity|].
    destruct e; simpl; unfold substitutions in *; simpl; now rewrite ?IH.
Qed.

Lemma run_substitutes_once_witness :
  run 2 (refresh circuit_assoc) = Some (rewritten_assoc, tl log_assoc) /\
  substituted (tl log_assoc) = [11] /\
  dead rewritten_assoc = [11].
Proof.
  assert (R : run 2 (refresh circuit_assoc) = Some (rewritten_assoc, tl log_assoc))
    by (vm_compute; reflexivity).
  split; [exact R|].
  destruct (run_substitutes_once _ _ _ _ R) as (_ & _ & D & _).
  split; [vm_compute; reflexivity|]. rewrite D. vm_compute. reflexivity.
Defined.

(** ** A bound on the work of a run *)

Lemma visit_work n cont ntk c ntk' es :
  annotated ntk -> is_gate ntk n && negb (is_dead ntk n) = true ->
  visit n cont ntk = (c, ntk', es) ->
  substitutions es + potential ntk' <= potential ntk.
Proof.
  intros A G H. rewrite visit_eq in H.
  apply andb_true_iff in G. destruct G as [G D]. apply negb_true_iff in D.
  destruct (try_algebraic_rules_outcome n ntk A) as [|cs s k C RW].
  - injection H as <- <- <-. unfold substitutions. simpl. lia.
  - injection H as <- <- <-.
    rewrite !substitutions_app, (substitutions_constructions _ C), potential_refresh.
    pose proof (potential_decrease ntk n s k RW G D).
    unfold substitutions. simpl. lia.
Qed.

Lemma foreach_gate_work ns : forall cont ntk c ntk' es,
  annotated ntk -> foreach_gate ns cont ntk = (c, ntk', es) ->
  substitutions es + potential ntk' <= potential ntk.
Proof.
  induction ns as [|n ns IH]; intros cont ntk c ntk' es A H; simpl in H.
  - injection H as <- <- <-. unfold substitutions. simpl. lia.
  - destruct (is_gate ntk n && negb (is_dead ntk n)) eqn:G;
      [|exact (IH _ _ _ _ _ A H)].
    unfold bind in H. pose proof (visit_preserved n cont ntk A) as P.
    destruct (visit n cont ntk) as [[c1 ntk1] e1] eqn:V. simpl in P.
    destruct (foreach_gate ns c1 ntk1) as [[c2 ntk2] e2] eqn:F.
    injection H as <- <- <-.
    pose proof (visit_work _ _ _ _ _ _ A G V).
    pose proof (IH _ _ _ _ _ (proj1 P) F).
    rewrite substitutions_app. lia.
Qed.

Lemma run_work fuel : forall ntk ntk' es,
  annotated ntk -> run fuel ntk = Some (ntk', es) ->
  substitutions es + potential ntk' <= potential ntk.
Proof.
  induction fuel as [|f IH]; intros ntk ntk' es A H; [discriminate|].
  cbn [run] in H. pose proof (scan_preserved ntk A) as P.
  destruct (scan ntk) as [[c g1] e1] eqn:Sc. cbn [fst snd] in P.
  pose proof (foreach_gate_work _ _ _ _ _ _ A Sc) as W1.
  destruct c.
  - destruct (run f g1) as [[g2 e2]|] eqn:R; [|discriminate].
    injection H as <- <-. pose proof (IH _ _ _ (proj1 P) R).
    rewrite substitutions_app. lia.
  - injection H as <- <-. exact W1.
Qed.

(** X12. The work of a run is bounded by the potential of its input (five
    to the power of its level, summed over the live gates): on a network with
    correct levels a run performs at most that many substitutions, every
    substitution lowers the potential, and the result has at most four new
    nodes for each unit of potential. *)
Theorem run_work_bound (fuel : nat) (ntk ntk' : network) (es : list event) :
  annotated ntk ->
  run fuel ntk = Some (ntk', es) ->
  substitutions es + potential ntk' <= potential ntk /\
  size ntk' <= size ntk + 4 * potential ntk.
Proof.
  intros A H. pose proof (run_work _ _ _ _ A H) as W. split; [exact W|].
  destruct (run_grows _ _ _ _ H) as (_ & B & _). lia.
Qed.

Lemma run_work_bound_witness :
  annotated (refresh circuit_assoc) /\
  run 2 (refresh circuit_assoc) = Some (rewritten_assoc, tl log_assoc) /\
  substitutions (tl log_assoc) + potential rewritten_assoc
    <= potential (refresh circuit_assoc).
Proof.
  assert (A : annotated (refresh circuit_assoc))
    by (apply annotated_refresh, topo_sorted_well_formed; reflexivity).
  assert (H : run 2 (refresh circuit_assoc) = Some (rewritten_assoc, tl log_assoc))
    by (vm_compute; reflexivity).
  split; [exact A|]. split; [exact H|].
  apply (proj1 (run_work_bound 2 (refresh circuit_assoc) rewritten_assoc
                  (tl log_assoc) A H)).
Defined.

(** ** The entry point *)

Lemma refresh_same_structure ntk ntk0 :
  nodes ntk0 = nodes ntk -> dead ntk0 = dead ntk -> outputs ntk0 = outputs ntk ->
  refresh ntk0 = refresh ntk.
Proof.
  intros En Ed Eo. unfold refresh, compute_levels, structural_level, size.
  rewrite En, Ed, Eo. f_equal. apply map_ext. intros x.
  now apply compute_level_nodes.
Qed.

(** X13. The entry point does not read the levels its argument stores: two
    networks with the same nodes, dead nodes and outputs are rewritten alike.
    On a well-formed network, whatever its stored levels, the returned
    network carries correct levels, stores for no old node a level above its
    structural level in the input, keeps the value of every old node, and has
    at most four new nodes per unit of potential of the input. *)
Theorem entry_ignores_stored_levels (fuel : nat) (ntk ntk0 : network) :
  nodes ntk0 = nodes ntk -> dead ntk0 = dead ntk -> outputs ntk0 = outputs ntk ->
  aig_algebraic_rewriting fuel ntk0 = aig_algebraic_rewriting fuel ntk /\
  (well_formed ntk ->
   forall ntk' es, aig_algebraic_rewriting fuel ntk0 = Some (ntk', es) ->
     annotated ntk' /\
     size ntk <= size ntk' /\ size ntk' <= size ntk + 4 * potential ntk /\
     (forall x, x < size ntk -> level ntk' x <= structural_level ntk x) /\
     (forall env x, x < size ntk -> node_value ntk' env x = node_value ntk env x)).
Proof.
  intros En Ed Eo.
  assert (E : aig_algebraic_rewriting fuel ntk0 = aig_algebraic_rewriting fuel ntk).
  { unfold aig_algebraic_rewriting, update_levels.
    now rewrite (refresh_same_structure ntk ntk0 En Ed Eo). }
  split; [exact E|]. intros W ntk' es H. rewrite E in H.
  unfold aig_algebraic_rewriting, update_levels in H.
  destruct (run fuel (refresh ntk)) as [[g e]|] eqn:R; [|discriminate].
  injection H as <- <-.
  pose proof (annotated_refresh _ W) as A.
  destruct (run_preserved _ _ _ _ A R) as (A' & _).
  destruct (run_framed _ _ _ _ A R) as (Sz & L & V).
  pose proof (run_work _ _ _ _ A R) as Wk. rewrite potential_refresh in Wk.
  destruct (run_grows _ _ _ _ R) as (_ & B & _).
  change (size (refresh ntk)) with (size ntk) in *.
  split; [exact A'|]. split; [exact Sz|]. split; [lia|]. split.
  - intros x Lx. rewrite (annotated_level _ _ A'), <- (structural_level_refresh ntk x).
    now apply L.
  - intros env x Lx. rewrite <- (node_value_refresh ntk env x). now apply V.
Qed.

Lemma entry_ignores_stored_levels_witness :
  well_formed circuit_assoc /\
  aig_algebraic_rewriting 2 circuit_assoc_swapped
  = aig_algebraic_rewriting 2 (refresh circuit_assoc_swapped) /\
  aig_algebraic_rewriting 2 (refresh circuit_assoc) = Some (rewritten_assoc, log_assoc) /\
  size rewritten_assoc <= size circuit_assoc + 4 * potential circuit_assoc.
Proof.
  assert (W : well_formed circuit_assoc)
    by (apply topo_sorted_well_formed; reflexivity).
  split; [exact W|]. split.
  - apply (proj1 (entry_ignores_stored_levels 2 (refresh circuit_assoc_swapped)
                    circuit_assoc_swapped eq_refl eq_refl eq_refl)).
  - assert (H : aig_algebraic_rewriting 2 (refresh circuit_assoc)
                = Some (rewritten_assoc, log_assoc)) by (vm_compute; reflexivity).
    split; [exact H|].
    apply (proj2 (entry_ignores_stored_levels 2 circuit_assoc (refresh circuit_assoc)
                    eq_refl eq_refl eq_refl) W rewritten_assoc log_assoc H).
Defined.
